(** * SAPT0 in atomic orbitals: the energy assembly of 7b_sapt0_ao.ipynb

    The notebook evaluates six perturbative corrections from dense NumPy
    arrays.  The arrays hold float64 numbers; here a scalar is an exact
    rational [Q] and equality of scalars is [Qeq] ([==]), so the theorems
    speak about the arithmetic the code performs and not about rounding.

    A NumPy array is a function from its indices to scalars together with its
    shape; the shape is passed to every operation that reads it (the
    contraction length of [np.dot], the extents of an [np.einsum] index).
    All statements are about dimension-consistent arrays: the same extent is
    used for an index wherever NumPy would require the extents to agree. *)

From Stdlib Require Import QArith Arith Lia List Bool.
Import ListNotations.

Open Scope Q_scope.

(** ** Arrays *)

Definition vector := nat -> Q.
Definition matrix := nat -> nat -> Q.
Definition tensor4 := nat -> nat -> nat -> nat -> Q.

(** ** Finite sums: the summation of one [einsum] index *)

Fixpoint sum (n : nat) (f : nat -> Q) : Q :=
  match n with
  | O => 0
  | Datatypes.S k => sum k f + f k
  end.

Definition sum2 (n1 n2 : nat) (f : nat -> nat -> Q) : Q :=
  sum n1 (fun i => sum n2 (fun j => f i j)).

Definition sum4 (n1 n2 n3 n4 : nat) (f : nat -> nat -> nat -> nat -> Q) : Q :=
  sum n1 (fun i => sum n2 (fun j => sum n3 (fun k => sum n4 (fun l => f i j k l)))).

(** ** The NumPy operations the notebook calls *)

Module Np.

(** [np.dot(A, B)] for 2-D arrays; [k] is the number of columns of [A]
    (and of rows of [B]). *)
Definition dot (k : nat) (A B : matrix) : matrix :=
  fun i j => sum k (fun l => A i l * B l j).

(** [A.T] *)
Definition T (A : matrix) : matrix := fun i j => A j i.

(** [A + B], [A - B], [c * A] on 2-D arrays, element by element. *)
Definition add (A B : matrix) : matrix := fun i j => A i j + B i j.
Definition sub (A B : matrix) : matrix := fun i j => A i j - B i j.
Definition scale (c : Q) (A : matrix) : matrix := fun i j => c * A i j.

(** [A.ravel()]: the row-major flattening of an array with [cols] columns. *)
Definition ravel (cols : nat) (A : matrix) : vector :=
  fun i => A (i / cols)%nat (i mod cols)%nat.

(** [np.vdot(A, B)]: both arguments are flattened and the flat vectors are
    multiplied element by element and summed (the entries are real, so the
    conjugation of the first argument does nothing). *)
Definition vdot (rows cols : nat) (A B : matrix) : Q :=
  sum (rows * cols) (fun i => ravel cols A i * ravel cols B i).

End Np.

(** The element-wise (Frobenius) inner product of the specification,
    [<A,B> = sum_KL A_KL * B_KL]. *)
Definition frobenius (rows cols : nat) (A B : matrix) : Q :=
  sum2 rows cols (fun K L => A K L * B K L).


(** ** Division in NumPy

    [1 / x] on an array does not raise when an entry of [x] is zero: the
    entry of the result is [inf] (or [nan] for [0 / 0]) and a RuntimeWarning
    is printed.  Every sum and product with [inf] or [nan] is again [inf] or
    [nan].  The dispersion cell is the one place of the notebook that
    divides, so its values are modelled as a rational or a non-finite
    float. *)

Inductive npfloat : Type :=
| Finite (q : Q)
| NonFinite.

Definition np_lift2 (op : Q -> Q -> Q) (x y : npfloat) : npfloat :=
  match x, y with
  | Finite a, Finite b => Finite (op a b)
  | _, _ => NonFinite
  end.

Definition np_add : npfloat -> npfloat -> npfloat := np_lift2 Qplus.
Definition np_mul : npfloat -> npfloat -> npfloat := np_lift2 Qmult.

Definition np_true_divide (x y : Q) : npfloat :=
  if Qeq_bool y 0 then NonFinite else Finite (x / y).

Fixpoint np_sum (n : nat) (f : nat -> npfloat) : npfloat :=
  match n with
  | O => Finite 0
  | Datatypes.S k => np_add (np_sum k f) (f k)
  end.

Definition np_sum4 (n1 n2 n3 n4 : nat)
  (f : nat -> nat -> nat -> nat -> npfloat) : npfloat :=
  np_sum n1 (fun i => np_sum n2 (fun j => np_sum n3 (fun k => np_sum n4 (fun l => f i j k l)))).

(** Equality of two such values: both non-finite, or equal rationals. *)
Definition np_eq (x y : npfloat) : Prop :=
  match x, y with
  | Finite a, Finite b => a == b
  | NonFinite, NonFinite => True
  | _, _ => False
  end.

(** What evaluating a notebook cell can produce: a value, or an error that
    names a numerical instability. *)
Inductive outcome : Type :=
| Returned (x : npfloat)
| NumericalInstability.

(** ** The routines of helper_SAPT the notebook calls *)

(** Modelled from the spec: [sapt.chain_dot] of helper_SAPT.py, which is not
    among the sources.  The notebook describes it as "nothing more than a
    multiplication of a chain of matrices - a series of [np.dot()] calls", the
    specification as a left-to-right sequence of matrix multiplications.
    Every operand after the first comes with its number of rows, the
    contraction length [np.dot] reads off its shape. *)
Definition chain_dot (A0 : matrix) (rest : list (nat * matrix)) : matrix :=
  fold_left (fun acc km => Np.dot (fst km) acc (snd km)) rest A0.

(** The generalized Coulomb and exchange matrices of the notebook,
    [J[X]_KL = (KL|MN) X_MN] and [K[X]_KL = (KM|NL) X_MN]. *)
Definition generalized_J (nbf : nat) (I_ao : tensor4) (X : matrix) : matrix :=
  fun K L => sum2 nbf nbf (fun M N => I_ao K L M N * X M N).

Definition generalized_K (nbf : nat) (I_ao : tensor4) (X : matrix) : matrix :=
  fun K L => sum2 nbf nbf (fun M N => I_ao K M N L * X M N).

(** Modelled from the spec: [sapt.compute_sapt_JK(A, B, tensor=T)] of
    helper_SAPT.py, which is not among the sources.  For [A] of shape
    nbf x n1, [B] of shape nbf x n2 and [T] of shape n1 x n2 it returns
    [J[X]] and [K[X]] for [X = A.T.B^T], and for [X = A.B^T] when the tag
    tensor is omitted. *)
Definition compute_sapt_JK (nbf n1 n2 : nat) (I_ao : tensor4)
  (A B : matrix) (tensor : option matrix) : matrix * matrix :=
  let X := match tensor with
           | None => Np.dot n1 A (Np.T B)
           | Some T => Np.dot n2 (Np.dot n1 A T) (Np.T B)
           end in
  (generalized_J nbf I_ao X, generalized_K nbf I_ao X).

(** ** The cells of the notebook

    Each cell is a function of the variables it reads.  The overlap [S] and
    the integral tensor [I] of the code are called [S_ao] and [I_ao] here. *)

(** The operands of a chain of square nbf x nbf matrices. *)
Definition square (nbf : nat) (l : list matrix) : list (nat * matrix) :=
  map (fun M => (nbf, M)) l.

(** *** Electrostatics *)

Definition Elst10 (nbf : nat) (Pi Pj Jjj V_A V_B : matrix) (nuc_rep : Q) : Q :=
  let two_el := 2 * Np.vdot nbf nbf Pi Jjj in
  let att_a := Np.vdot nbf nbf V_A Pj in
  let att_b := Np.vdot nbf nbf V_B Pi in
  let rep := nuc_rep in
  let elst_ijij := 2 * (two_el + att_a + att_b) + rep in
  elst_ijij.

(** *** First-order exchange *)

Definition Exch100 (nbf : nat) (Pi Pj S_ao h_A h_B w_A w_B Kii Kij : matrix) : Q :=
  let exch := 0 in
  let exch := exch - 2 * Np.vdot nbf nbf Pj Kii in
  let exch := exch - 2 * Np.vdot nbf nbf (chain_dot Pi (square nbf [S_ao; Pj])) (Np.add h_A h_B) in
  let exch := exch + 2 * Np.vdot nbf nbf (chain_dot Pj (square nbf [S_ao; Pi; S_ao; Pj])) w_A in
  let exch := exch + 2 * Np.vdot nbf nbf (chain_dot Pi (square nbf [S_ao; Pj; S_ao; Pi])) w_B in
  let exch := exch - 2 * Np.vdot nbf nbf (chain_dot Pi (square nbf [S_ao; Pj])) Kij in
  exch.

(** *** Dispersion *)

Definition nptensor4 := nat -> nat -> nat -> nat -> npfloat.

(** The broadcast sum [-eps_r - eps_s + eps_a + eps_b] at [r, s, a, b]. *)
Definition denominator (eps_a eps_b eps_r eps_s : vector) (r s a b : nat) : Q :=
  - eps_r r - eps_s s + eps_a a + eps_b b.

Definition e_rsab (eps_a eps_b eps_r eps_s : vector) : nptensor4 :=
  fun r s a b => np_true_divide 1 (denominator eps_a eps_b eps_r eps_s r s a b).

(** [4 * np.einsum('rsab,rsab,abrs->', e_rsab, v_rsab, v_abrs)] *)
Definition Disp200 (nr ns na nb : nat) (e : nptensor4) (v_rsab v_abrs : tensor4) : npfloat :=
  np_mul (Finite 4)
    (np_sum4 nr ns na nb (fun r s a b =>
       np_mul (np_mul (e r s a b) (Finite (v_rsab r s a b))) (Finite (v_abrs a b r s)))).

(** The cell has no test and no [raise]: whatever the division gives is
    returned. *)
Definition dispersion_cell (nr ns na nb : nat) (eps_a eps_b eps_r eps_s : vector)
  (v_rsab v_abrs : tensor4) : outcome :=
  Returned (Disp200 nr ns na nb (e_rsab eps_a eps_b eps_r eps_s) v_rsab v_abrs).

(** *** Exchange-dispersion *)

(** [np.einsum('rsab,rsab->rsab', v_rsab, e_rsab)] *)
Definition t_rsab (v_rsab : tensor4) (e : nptensor4) : nptensor4 :=
  fun r s a b => np_mul (Finite (v_rsab r s a b)) (e r s a b).

(** The back-transformation to the AO basis, one index at a time, for finite
    amplitudes [t]: the values of [t_rsab] when no denominator vanishes. *)
Definition t_lnkm (nr ns na nb : nat) (t : tensor4) (Ci Cj Cr Cs : matrix) : tensor4 :=
  let t_lsab := fun l s a b => sum nr (fun r => t r s a b * Np.T Cr r l) in
  let t_lnab := fun l n a b => sum ns (fun s => t_lsab l s a b * Np.T Cs s n) in
  let t_lnkb := fun l n k b => sum na (fun a => t_lnab l n a b * Np.T Ci a k) in
  fun l n k m => sum nb (fun b => t_lnkb l n k b * Np.T Cj b m).

(** The energy assembly; [T] is [t_lnkm]. *)
Definition ExchDisp20 (nbf : nat) (T I_ao : tensor4)
  (S_ao h_A h_B w_A w_B Pi Pj Kij : matrix) : Q :=
  let E := - 2 * sum4 nbf nbf nbf nbf (fun l n k m => T l n k m * I_ao k n m l) in
  let E := E - 2 * sum4 nbf nbf nbf nbf (fun l n k m => T l n k m * h_A m l * S_ao k n) in
  let E := E - 2 * sum4 nbf nbf nbf nbf (fun l n k m => T l n k m * S_ao m l * h_B k n) in
  let interm := fun k l m n =>
    2 * sum nbf (fun q => I_ao k l m q * Np.dot nbf S_ao Pi n q) in
  let E := E - 2 * sum4 nbf nbf nbf nbf (fun l n k m => T l n k m * interm k l m n) in
  let E := E + sum4 nbf nbf nbf nbf (fun l n k m => T l n k m * interm m l k n) in
  let interm := fun k l m n =>
    2 * sum nbf (fun q => I_ao k l m q * Np.dot nbf S_ao Pj n q) in
  let E := E - 2 * sum4 nbf nbf nbf nbf (fun l n k m => T l n k m * interm m n k l) in
  let E := E + sum4 nbf nbf nbf nbf (fun l n k m => T l n k m * interm k n m l) in
  let E := E - 4 * sum4 nbf nbf nbf nbf (fun l n k m =>
    T l n k m * w_A m n * chain_dot S_ao (square nbf [Pj; S_ao]) k l) in
  let E := E + 2 * sum4 nbf nbf nbf nbf (fun l n k m =>
    T l n k m * S_ao k n * chain_dot w_A (square nbf [Pj; S_ao]) m l) in
  let E := E + 2 * sum4 nbf nbf nbf nbf (fun l n k m =>
    T l n k m * S_ao m l * chain_dot w_A (square nbf [Pj; S_ao]) n k) in
  let E := E - 4 * sum4 nbf nbf nbf nbf (fun l n k m =>
    T l n k m * w_B k l * chain_dot S_ao (square nbf [Pi; S_ao]) m n) in
  let E := E + 2 * sum4 nbf nbf nbf nbf (fun l n k m =>
    T l n k m * S_ao m l * chain_dot w_B (square nbf [Pi; S_ao]) k n) in
  let E := E + 2 * sum4 nbf nbf nbf nbf (fun l n k m =>
    T l n k m * S_ao k n * chain_dot w_B (square nbf [Pi; S_ao]) l m) in
  let spbspa := chain_dot S_ao (square nbf [Pj; S_ao; Pi]) in
  let spaspb := chain_dot S_ao (square nbf [Pi; S_ao; Pj]) in
  let interm := fun k l m n => sum nbf (fun q => I_ao k q m n * spbspa l q) in
  let interm := fun k l m n => interm k l m n + sum nbf (fun p => I_ao p l m n * spbspa k p) in
  let interm := fun k l m n => interm k l m n + sum nbf (fun s => I_ao k l m s * spaspb n s) in
  let interm := fun k l m n => interm k l m n + sum nbf (fun r => I_ao k l r n * spaspb m r) in
  let E := E + 4 * sum4 nbf nbf nbf nbf (fun l n k m => T l n k m * interm k l m n) in
  let E := E - 2 * sum4 nbf nbf nbf nbf (fun l n k m => T l n k m * S_ao k n * Np.T Kij m l) in
  let E := E - 2 * sum4 nbf nbf nbf nbf (fun l n k m => T l n k m * S_ao m l * Np.T Kij n k) in
  let spa := Np.dot nbf S_ao Pi in
  let spb := Np.dot nbf S_ao Pj in
  let interm := fun k p m n => sum nbf (fun q => I_ao k p m q * spa n q) in
  let interm := fun k l m n => sum nbf (fun p => interm k p m n * spb l p) in
  let E := E - 2 * sum4 nbf nbf nbf nbf (fun l n k m => T l n k m * interm m l k n) in
  let E := E - 2 * sum4 nbf nbf nbf nbf (fun l n k m => T l n k m * interm n k l m) in
  E.

(** *** Exchange-induction

    [JK_jij] and [JK_iji] are the pairs returned by the two extra calls of
    [sapt.compute_sapt_JK]. *)

Definition ExchInd20_ab (nbf na nr : nat)
  (Ci Cr CPHF_ra S_ao Pi Pj h_A h_B w_A w_B Kjj Jij Kij : matrix)
  (JK_jij : matrix * matrix) : Q :=
  let CPHFA_ao := chain_dot Ci [(na, Np.T CPHF_ra); (nr, Np.T Cr)] in
  let E := - 2 * Np.vdot nbf nbf CPHFA_ao Kjj in
  let E := E - 2 * Np.vdot nbf nbf CPHFA_ao (chain_dot S_ao (square nbf [Pj; h_A])) in
  let E := E - 2 * Np.vdot nbf nbf CPHFA_ao (chain_dot h_B (square nbf [Pj; S_ao])) in
  let E := E - 4 * Np.vdot nbf nbf CPHFA_ao Jij in
  let E := E + 2 * Np.vdot nbf nbf CPHFA_ao Kij in
  let E := E + 2 * Np.vdot nbf nbf CPHFA_ao (chain_dot w_B (square nbf [Pi; S_ao; Pj; S_ao])) in
  let E := E + 2 * Np.vdot nbf nbf CPHFA_ao (chain_dot S_ao (square nbf [Pj; S_ao; Pi; w_B])) in
  let E := E + 2 * Np.vdot nbf nbf CPHFA_ao (chain_dot S_ao (square nbf [Pj; w_A; Pj; S_ao])) in
  let '(Jjij, Kjij) := JK_jij in
  let E := E + 4 * Np.vdot nbf nbf CPHFA_ao Jjij in
  let E := E - 2 * Np.vdot nbf nbf CPHFA_ao (chain_dot S_ao (square nbf [Pj; Np.T Kij])) in
  let E := E - 2 * Np.vdot nbf nbf CPHFA_ao (chain_dot Kij (square nbf [Pj; S_ao])) in
  E.

Definition ExchInd20_ba (nbf nb ns : nat)
  (Cj Cs CPHF_sb S_ao Pi Pj h_A h_B w_A w_B Kii Jij Kij : matrix)
  (JK_iji : matrix * matrix) : Q :=
  let CPHFB_ao := chain_dot Cj [(nb, Np.T CPHF_sb); (ns, Np.T Cs)] in
  let E := - 2 * Np.vdot nbf nbf CPHFB_ao Kii in
  let E := E - 2 * Np.vdot nbf nbf CPHFB_ao (chain_dot S_ao (square nbf [Pi; h_B])) in
  let E := E - 2 * Np.vdot nbf nbf CPHFB_ao (chain_dot h_A (square nbf [Pi; S_ao])) in
  let E := E - 4 * Np.vdot nbf nbf CPHFB_ao Jij in
  let E := E + 2 * Np.vdot nbf nbf CPHFB_ao (Np.T Kij) in
  let E := E + 2 * Np.vdot nbf nbf CPHFB_ao (chain_dot w_A (square nbf [Pj; S_ao; Pi; S_ao])) in
  let E := E + 2 * Np.vdot nbf nbf CPHFB_ao (chain_dot S_ao (square nbf [Pi; S_ao; Pj; w_A])) in
  let E := E + 2 * Np.vdot nbf nbf CPHFB_ao (chain_dot S_ao (square nbf [Pi; w_B; Pi; S_ao])) in
  let '(Jiji, Kiji) := JK_iji in
  let E := E + 4 * Np.vdot nbf nbf CPHFB_ao Jiji in
  let E := E - 2 * Np.vdot nbf nbf CPHFB_ao (chain_dot S_ao (square nbf [Pi; Kij])) in
  let E := E - 2 * Np.vdot nbf nbf CPHFB_ao (chain_dot (Np.T Kij) (square nbf [Pi; S_ao])) in
  E.

(** *** Summary *)

Definition ExchInd20r (ExchInd20_ba_val ExchInd20_ab_val : Q) : Q :=
  ExchInd20_ba_val + ExchInd20_ab_val.

(** [sapt0 = Exch100 + Elst10 + Disp200 + ExchDisp20 + Ind20r + ExchInd20r] *)
Definition sapt0 (Exch100_val Elst10_val : Q) (Disp200_val : npfloat)
  (ExchDisp20_val Ind20r_val ExchInd20r_val : Q) : npfloat :=
  np_add (np_add (np_add (np_add (np_add (Finite Exch100_val) (Finite Elst10_val))
    Disp200_val) (Finite ExchDisp20_val)) (Finite Ind20r_val)) (Finite ExchInd20r_val).

(** ** The notebook as a whole

    [sapt.t] holds what the notebook reads from the [helper_SAPT] object: the
    SCF output of the two monomers, the integrals, and the results of the
    routines that are computed outside the notebook ([sapt.v], [sapt.eps],
    [sapt.chf]). *)

Module sapt.
Record t : Type := mk {
  nbf : nat;
  ndocc_A : nat;
  ndocc_B : nat;
  nvirt_A : nat;
  nvirt_B : nat;
  orbitals_a : matrix;
  orbitals_b : matrix;
  orbitals_r : matrix;
  orbitals_s : matrix;
  S : matrix;
  V_A : matrix;
  V_B : matrix;
  nuc_rep : Q;
  ao_eri : tensor4;
  eps_a : vector;
  eps_b : vector;
  eps_r : vector;
  eps_s : vector;
  v_abrs : tensor4;
  v_rsab : tensor4;
  chf_B : matrix * Q;
  chf_A : matrix * Q
}.
End sapt.

Module Run.
Section Notebook.
Variable d : sapt.t.

Definition Pi : matrix :=
  Np.dot (sapt.ndocc_A d) (sapt.orbitals_a d) (Np.T (sapt.orbitals_a d)).
Definition Pj : matrix :=
  Np.dot (sapt.ndocc_B d) (sapt.orbitals_b d) (Np.T (sapt.orbitals_b d)).
Definition S_ao : matrix := sapt.S d.
Definition Ci : matrix := sapt.orbitals_a d.
Definition Cj : matrix := sapt.orbitals_b d.
Definition Cr : matrix := sapt.orbitals_r d.
Definition Cs : matrix := sapt.orbitals_s d.
Definition I_ao : tensor4 := sapt.ao_eri d.

Definition JK_ii : matrix * matrix :=
  compute_sapt_JK (sapt.nbf d) (sapt.ndocc_A d) (sapt.ndocc_A d) I_ao Ci Ci None.
Definition Jii : matrix := fst JK_ii.
Definition Kii : matrix := snd JK_ii.
Definition JK_jj : matrix * matrix :=
  compute_sapt_JK (sapt.nbf d) (sapt.ndocc_B d) (sapt.ndocc_B d) I_ao Cj Cj None.
Definition Jjj : matrix := fst JK_jj.
Definition Kjj : matrix := snd JK_jj.
Definition JK_ij : matrix * matrix :=
  compute_sapt_JK (sapt.nbf d) (sapt.ndocc_A d) (sapt.ndocc_B d) I_ao Ci Cj
    (Some (chain_dot (Np.T Ci) (square (sapt.nbf d) [S_ao; Cj]))).
Definition Jij : matrix := fst JK_ij.
Definition Kij : matrix := snd JK_ij.

Definition w_A : matrix := Np.add (sapt.V_A d) (Np.scale 2 Jii).
Definition w_B : matrix := Np.add (sapt.V_B d) (Np.scale 2 Jjj).
Definition h_A : matrix := Np.sub (Np.add (sapt.V_A d) (Np.scale 2 Jii)) Kii.
Definition h_B : matrix := Np.sub (Np.add (sapt.V_B d) (Np.scale 2 Jjj)) Kjj.

Definition Elst10 : Q :=
  Elst10 (sapt.nbf d) Pi Pj Jjj (sapt.V_A d) (sapt.V_B d) (sapt.nuc_rep d).

Definition Exch100 : Q :=
  Exch100 (sapt.nbf d) Pi Pj S_ao h_A h_B w_A w_B Kii Kij.

Definition Disp200 : npfloat :=
  Disp200 (sapt.nvirt_A d) (sapt.nvirt_B d) (sapt.ndocc_A d) (sapt.ndocc_B d)
    (e_rsab (sapt.eps_a d) (sapt.eps_b d) (sapt.eps_r d) (sapt.eps_s d))
    (sapt.v_rsab d) (sapt.v_abrs d).

(** [CPHF_ra, Ind20_ba = sapt.chf('B', ind=True)] and
    [CPHF_sb, Ind20_ab = sapt.chf('A', ind=True)] *)
Definition CPHF_ra : matrix := fst (sapt.chf_B d).
Definition Ind20_ba : Q := snd (sapt.chf_B d).
Definition CPHF_sb : matrix := fst (sapt.chf_A d).
Definition Ind20_ab : Q := snd (sapt.chf_A d).
Definition Ind20r : Q := Ind20_ba + Ind20_ab.

Definition JK_jij : matrix * matrix :=
  compute_sapt_JK (sapt.nbf d) (sapt.ndocc_B d) (sapt.ndocc_B d) I_ao Cj Cj
    (Some (chain_dot (Np.T Cj) (square (sapt.nbf d) [S_ao; Pi; S_ao; Cj]))).
Definition JK_iji : matrix * matrix :=
  compute_sapt_JK (sapt.nbf d) (sapt.ndocc_A d) (sapt.ndocc_A d) I_ao Ci Ci
    (Some (chain_dot (Np.T Ci) (square (sapt.nbf d) [S_ao; Pj; S_ao; Ci]))).

Definition ExchInd20_ab : Q :=
  ExchInd20_ab (sapt.nbf d) (sapt.ndocc_A d) (sapt.nvirt_A d)
    Ci Cr CPHF_ra S_ao Pi Pj h_A h_B w_A w_B Kjj Jij Kij JK_jij.

Definition ExchInd20_ba : Q :=
  ExchInd20_ba (sapt.nbf d) (sapt.ndocc_B d) (sapt.nvirt_B d)
    Cj Cs CPHF_sb S_ao Pi Pj h_A h_B w_A w_B Kii Jij Kij JK_iji.

End Notebook.
End Run.

(** Exchanging the monomer labels in everything the notebook reads.  The
    integral slices [v_abrs], [v_rsab] and the results of the response solver
    are computed outside the notebook; with the labels exchanged the slice
    holds at [a, b, r, s] what it held at [b, a, s, r], and the two solver
    calls return each other's results. *)
Definition swap_monomers (d : sapt.t) : sapt.t :=
  {| sapt.nbf := sapt.nbf d;
     sapt.ndocc_A := sapt.ndocc_B d;
     sapt.ndocc_B := sapt.ndocc_A d;
     sapt.nvirt_A := sapt.nvirt_B d;
     sapt.nvirt_B := sapt.nvirt_A d;
     sapt.orbitals_a := sapt.orbitals_b d;
     sapt.orbitals_b := sapt.orbitals_a d;
     sapt.orbitals_r := sapt.orbitals_s d;
     sapt.orbitals_s := sapt.orbitals_r d;
     sapt.S := sapt.S d;
     sapt.V_A := sapt.V_B d;
     sapt.V_B := sapt.V_A d;
     sapt.nuc_rep := sapt.nuc_rep d;
     sapt.ao_eri := sapt.ao_eri d;
     sapt.eps_a := sapt.eps_b d;
     sapt.eps_b := sapt.eps_a d;
     sapt.eps_r := sapt.eps_s d;
     sapt.eps_s := sapt.eps_r d;
     sapt.v_abrs := fun a b r s => sapt.v_abrs d b a s r;
     sapt.v_rsab := fun r s a b => sapt.v_rsab d s r b a;
     sapt.chf_B := sapt.chf_A d;
     sapt.chf_A := sapt.chf_B d |}.

(** ** The expressions of the specification

    These definitions follow the formulas of the specification and of the
    notebook's text, not the code; the theorems below compare them with the
    cells. *)

(** [Exch = -2 <P_B,K_A> - 2 <P_A S P_B, F_A + F_B> + 2 <P_B S P_A S P_B, w_A>
           + 2 <P_A S P_B S P_A, w_B> - 2 <P_A S P_B, K[P_A S P_B]>],
    every chained product multiplied from the left to the right. *)
Definition Exch_documented (nbf : nat)
  (P_A P_B S_ao F_A F_B w_A w_B K_A K_AB : matrix) : Q :=
  let PASPB := Np.dot nbf (Np.dot nbf P_A S_ao) P_B in
  let PBSPASPB := Np.dot nbf (Np.dot nbf (Np.dot nbf (Np.dot nbf P_B S_ao) P_A) S_ao) P_B in
  let PASPBSPA := Np.dot nbf (Np.dot nbf (Np.dot nbf (Np.dot nbf P_A S_ao) P_B) S_ao) P_A in
  - 2 * frobenius nbf nbf P_B K_A
  - 2 * frobenius nbf nbf PASPB (fun K L => F_A K L + F_B K L)
  + 2 * frobenius nbf nbf PBSPASPB w_A
  + 2 * frobenius nbf nbf PASPBSPA w_B
  - 2 * frobenius nbf nbf PASPB K_AB.

(** The dispersion energy as the specification writes it,
    [Disp = 4 sum t_rsab v_rsab v_abrs] with
    [t_rsab = v_rsab / (eps_a + eps_b - eps_r - eps_s)]. *)
Definition Disp_documented (nr ns na nb : nat) (eps_a eps_b eps_r eps_s : vector)
  (v_rsab v_abrs : tensor4) : Q :=
  4 * sum4 nr ns na nb (fun r s a b =>
        (v_rsab r s a b / (eps_a a + eps_b b - eps_r r - eps_s s))
        * v_rsab r s a b * v_abrs a b r s).

(** The dispersion energy of the notebook's text,
    [E = 4 t_rsab v_abrs] with the same amplitude. *)
Definition Disp_amplitude_form (nr ns na nb : nat) (eps_a eps_b eps_r eps_s : vector)
  (v_rsab v_abrs : tensor4) : Q :=
  4 * sum4 nr ns na nb (fun r s a b =>
        (v_rsab r s a b / (eps_a a + eps_b b - eps_r r - eps_s s)) * v_abrs a b r s).

(** [t_LNKM = sum_rsab t_rsab C_Ka C_Mb C_Lr C_Ns] *)
Definition t_LNKM_documented (nr ns na nb : nat) (t : tensor4)
  (Ci Cj Cr Cs : matrix) : tensor4 :=
  fun L N K M =>
    sum4 nr ns na nb (fun r s a b => t r s a b * Ci K a * Cj M b * Cr L r * Cs N s).

(** The bracket of the documented exchange-dispersion expression at the AO
    indices [K, L, M, N]; [K_BA] stands for [K[P_B S P_A]]. *)
Definition ExchDisp20_bracket (nbf : nat) (I_ao : tensor4)
  (S_ao F_A F_B w_A w_B P_A P_B K_BA : matrix) (K L M N : nat) : Q :=
  let SPA := Np.dot nbf S_ao P_A in
  let SPB := Np.dot nbf S_ao P_B in
  let SPBS := Np.dot nbf (Np.dot nbf S_ao P_B) S_ao in
  let SPAS := Np.dot nbf (Np.dot nbf S_ao P_A) S_ao in
  let wAPBS := Np.dot nbf (Np.dot nbf w_A P_B) S_ao in
  let wBPAS := Np.dot nbf (Np.dot nbf w_B P_A) S_ao in
  let SPBSPA := Np.dot nbf (Np.dot nbf (Np.dot nbf S_ao P_B) S_ao) P_A in
  let SPASPB := Np.dot nbf (Np.dot nbf (Np.dot nbf S_ao P_A) S_ao) P_B in
  - 2 * I_ao K N M L - 2 * S_ao K N * F_A M L - 2 * S_ao M L * F_B K N
  - 4 * sum nbf (fun q => I_ao K L M q * SPA N q)
  + 2 * sum nbf (fun q => I_ao M L K q * SPA N q)
  - 4 * sum nbf (fun q => I_ao M N K q * SPB L q)
  + 2 * sum nbf (fun q => I_ao K N M q * SPB L q)
  - 4 * w_A M N * SPBS K L + 2 * S_ao K N * wAPBS M L + 2 * S_ao M L * wAPBS N K
  - 4 * w_B K L * SPAS M N + 2 * S_ao M L * wBPAS K N + 2 * S_ao K N * wBPAS L M
  + 4 * sum nbf (fun q => I_ao K q M N * SPBSPA L q)
  + 4 * sum nbf (fun p => I_ao p L M N * SPBSPA K p)
  + 4 * sum nbf (fun s => I_ao K L M s * SPASPB N s)
  + 4 * sum nbf (fun r => I_ao K L r N * SPASPB M r)
  - 2 * S_ao K N * K_BA M L - 2 * S_ao M L * K_BA N K
  - 2 * sum nbf (fun s => sum nbf (fun q => I_ao M s K q * SPB L s * SPA N q))
  - 2 * sum nbf (fun r => sum nbf (fun p => I_ao N r L p * SPB K r * SPA M p)).

(** [E = t_LNKM * bracket], summed over the four AO indices. *)
Definition ExchDisp20_documented (nbf : nat) (T I_ao : tensor4)
  (S_ao F_A F_B w_A w_B P_A P_B K_BA : matrix) : Q :=
  sum4 nbf nbf nbf nbf (fun L N K M =>
    T L N K M * ExchDisp20_bracket nbf I_ao S_ao F_A F_B w_A w_B P_A P_B K_BA K L M N).

(** Symmetry of a square matrix and the pair symmetries of the integral
    tensor, on the indices the arrays have. *)
Definition symmetric (nbf : nat) (A : matrix) : Prop :=
  forall K L, (K < nbf)%nat -> (L < nbf)%nat -> A K L == A L K.

Definition pair_symmetric (nbf : nat) (I_ao : tensor4) : Prop :=
  forall K L M N, (K < nbf)%nat -> (L < nbf)%nat -> (M < nbf)%nat -> (N < nbf)%nat ->
    I_ao K L M N == I_ao L K M N /\
    I_ao K L M N == I_ao K L N M /\
    I_ao K L M N == I_ao M N K L.

(** Two matrices with equal entries at the indices of an r x c array. *)
Definition mat_eq (r c : nat) (A B : matrix) : Prop :=
  forall i j, (i < r)%nat -> (j < c)%nat -> A i j == B i j.

(** ** Concrete inputs of the dispersion cell *)

Module DispExample.
(** One orbital in each space; [eps_a = eps_b = -1], [eps_r = eps_s = 1],
    so the single denominator is [-4]. *)
Definition eps_occ : vector := fun _ => - (1).
Definition eps_virt : vector := fun _ => 1.
Definition v_rsab : tensor4 := fun _ _ _ _ => 2.
Definition v_abrs : tensor4 := fun _ _ _ _ => 3.
(** Degenerate orbital energies: every denominator is zero. *)
Definition eps_flat : vector := fun _ => 1.
End DispExample.

(** ** A small dimer: two basis functions, one occupied and one virtual
    orbital on each monomer *)

Module Example.
Definition column (x0 x1 : Q) : matrix :=
  fun K _ => match K with O => x0 | _ => x1 end.
Definition table2 (x00 x01 x10 x11 : Q) : matrix :=
  fun K L =>
    match K, L with
    | O, O => x00
    | O, _ => x01
    | _, O => x10
    | _, _ => x11
    end.
Definition S_ao : matrix := table2 1 (1 # 2) (1 # 2) 1.
Definition V_A : matrix := table2 (- (2)) (- (1 # 2)) (- (1 # 2)) (- (1)).
Definition V_B : matrix := table2 (- (1)) (- (1 # 3)) (- (1 # 3)) (- (2)).
Definition pair_density : matrix := table2 1 (1 # 4) (1 # 4) (1 # 2).
(** [(KL|MN) = g_KL g_MN] with a symmetric [g]. *)
Definition I_ao : tensor4 := fun K L M N => pair_density K L * pair_density M N.
Definition d : sapt.t :=
  {| sapt.nbf := 2;
     sapt.ndocc_A := 1;
     sapt.ndocc_B := 1;
     sapt.nvirt_A := 1;
     sapt.nvirt_B := 1;
     sapt.orbitals_a := column 1 (1 # 5);
     sapt.orbitals_b := column (1 # 3) 1;
     sapt.orbitals_r := column (1 # 2) (- (1));
     sapt.orbitals_s := column (- (1)) (1 # 4);
     sapt.S := S_ao;
     sapt.V_A := V_A;
     sapt.V_B := V_B;
     sapt.nuc_rep := 9;
     sapt.ao_eri := I_ao;
     sapt.eps_a := fun _ => - (1);
     sapt.eps_b := fun _ => - (3 # 2);
     sapt.eps_r := fun _ => 1;
     sapt.eps_s := fun _ => 2;
     sapt.v_abrs := fun _ _ _ _ => 1 # 5;
     sapt.v_rsab := fun _ _ _ _ => 1 # 5;
     sapt.chf_B := (fun _ _ => 1 # 3, - (1 # 100));
     sapt.chf_A := (fun _ _ => 1 # 7, - (1 # 50)) |}.
(** The amplitude of the dimer, [v_rsab / (eps_a + eps_b - eps_r - eps_s)]. *)
Definition t : tensor4 := fun _ _ _ _ => - (2 # 55).
End Example.

(** ** The exchange-induction expression of the notebook's text

    [C_KL = C^a_r C_Ka C_Lr] and, for the direction A<-B,
    [E = C . [ -2 K^B - 2 S P^B F^A - 2 F^B P^B S - 4 J[P^B S P^A]
               + 2 K[P^A S P^B] + 2 w^B P^A S P^B S + 2 S P^B S P^A w^B
               + 2 S P^B w^A P^B S + 4 J[P^B S P^A S P^B]
               - 2 S P^B K[P^B S P^A] - 2 K[P^A S P^B] P^B S ]];
    the direction B<-A interchanges the quantities of A and of B. *)

Definition CPHF_ao_documented (nocc nvirt : nat) (C_occ C_virt CPHF : matrix) : matrix :=
  fun K L => sum nocc (fun a => sum nvirt (fun r => CPHF r a * C_occ K a * C_virt L r)).

(** [K_B] is [K^B], [J_BA] is [J[P^B S P^A]], [K_AB] and [K_BA] are
    [K[P^A S P^B]] and [K[P^B S P^A]], [J_BAB] is [J[P^B S P^A S P^B]]. *)
Definition ExchInd20_bracket (nbf : nat)
  (S_ao F_A F_B w_A w_B P_A P_B K_B J_BA K_AB K_BA J_BAB : matrix) : matrix :=
  fun K L =>
    - 2 * K_B K L
    - 2 * Np.dot nbf (Np.dot nbf S_ao P_B) F_A K L
    - 2 * Np.dot nbf (Np.dot nbf F_B P_B) S_ao K L
    - 4 * J_BA K L
    + 2 * K_AB K L
    + 2 * Np.dot nbf (Np.dot nbf (Np.dot nbf (Np.dot nbf w_B P_A) S_ao) P_B) S_ao K L
    + 2 * Np.dot nbf (Np.dot nbf (Np.dot nbf (Np.dot nbf S_ao P_B) S_ao) P_A) w_B K L
    + 2 * Np.dot nbf (Np.dot nbf (Np.dot nbf (Np.dot nbf S_ao P_B) w_A) P_B) S_ao K L
    + 4 * J_BAB K L
    - 2 * Np.dot nbf (Np.dot nbf S_ao P_B) K_BA K L
    - 2 * Np.dot nbf (Np.dot nbf K_AB P_B) S_ao K L.

(** A slice that is zero everywhere. *)
Definition zero_slice : tensor4 := fun _ _ _ _ => 0.
(** ** Lemmas on finite sums *)

Lemma sum_ext (n : nat) (f g : nat -> Q) :
  (forall i, (i < n)%nat -> f i == g i) -> sum n f == sum n g.
Proof.
  induction n as [|n IH]; intros H; simpl.
  - reflexivity.
  - rewrite IH by (intros i Hi; apply H; lia).
    rewrite (H n) by lia. reflexivity.
Qed.

Lemma sum_zero (n : nat) : sum n (fun _ => 0) == 0.
Proof.
  induction n as [|n IH]; simpl; [reflexivity | rewrite IH; ring].
Qed.

Lemma sum_plus (n : nat) (f g : nat -> Q) :
  sum n (fun i => f i + g i) == sum n f + sum n g.
Proof.
  induction n as [|n IH]; simpl; [ring | rewrite IH; ring].
Qed.

Lemma sum_scale (n : nat) (c : Q) (f : nat -> Q) :
  sum n (fun i => c * f i) == c * sum n f.
Proof.
  induction n as [|n IH]; simpl; [ring | rewrite IH; ring].
Qed.

Lemma sum_scale_r (n : nat) (c : Q) (f : nat -> Q) :
  sum n (fun i => f i * c) == sum n f * c.
Proof.
  induction n as [|n IH]; simpl; [ring | rewrite IH; ring].
Qed.

Lemma sum_swap (m n : nat) (f : nat -> nat -> Q) :
  sum m (fun i => sum n (fun j => f i j)) == sum n (fun j => sum m (fun i => f i j)).
Proof.
  induction m as [|m IH]; simpl.
  - symmetry. apply sum_zero.
  - rewrite IH. symmetry. apply sum_plus.
Qed.

Lemma sum_app (m n : nat) (f : nat -> Q) :
  sum (m + n) f == sum m f + sum n (fun j => f (m + j)%nat).
Proof.
  induction n as [|n IH].
  - rewrite Nat.add_0_r. simpl. ring.
  - rewrite Nat.add_succ_r. simpl. rewrite IH. ring.
Qed.

(** [np.vdot] of two arrays of one shape is the Frobenius inner product. *)
Lemma vdot_frobenius (rows cols : nat) (A B : matrix) :
  Np.vdot rows cols A B == frobenius rows cols A B.
Proof.
  unfold Np.vdot, frobenius, sum2.
  induction rows as [|r IH].
  - reflexivity.
  - replace (Datatypes.S r * cols)%nat with (r * cols + cols)%nat by lia.
    rewrite sum_app, IH. simpl.
    apply Qplus_comp; [reflexivity|].
    apply sum_ext. intros j Hj. unfold Np.ravel.
    replace ((r * cols + j) / cols)%nat with r.
    + replace ((r * cols + j) mod cols)%nat with j; [reflexivity|].
      rewrite Nat.add_comm, Nat.Div0.mod_add. symmetry. apply Nat.mod_small. exact Hj.
    + rewrite Nat.add_comm, Nat.div_add by lia.
      rewrite Nat.div_small by exact Hj. reflexivity.
Qed.

Lemma sum2_ext (m n : nat) (f g : nat -> nat -> Q) :
  (forall i j, (i < m)%nat -> (j < n)%nat -> f i j == g i j) ->
  sum2 m n f == sum2 m n g.
Proof.
  intros H. unfold sum2.
  apply sum_ext; intros i Hi. apply sum_ext; intros j Hj. now apply H.
Qed.

Lemma sum4_ext (n1 n2 n3 n4 : nat) (f g : nat -> nat -> nat -> nat -> Q) :
  (forall i j k l, (i < n1)%nat -> (j < n2)%nat -> (k < n3)%nat -> (l < n4)%nat ->
     f i j k l == g i j k l) ->
  sum4 n1 n2 n3 n4 f == sum4 n1 n2 n3 n4 g.
Proof.
  intros H. unfold sum4.
  apply sum_ext; intros i Hi. apply sum_ext; intros j Hj.
  apply sum_ext; intros k Hk. apply sum_ext; intros l Hl. now apply H.
Qed.

Lemma frobenius_ext (r c : nat) (A A' B B' : matrix) :
  mat_eq r c A A' -> mat_eq r c B B' ->
  frobenius r c A B == frobenius r c A' B'.
Proof.
  intros HA HB. apply sum2_ext. intros i j Hi Hj.
  rewrite (HA i j Hi Hj), (HB i j Hi Hj). reflexivity.
Qed.

Lemma chain_dot_2 (nbf : nat) (A B C : matrix) :
  chain_dot A (square nbf [B; C]) = Np.dot nbf (Np.dot nbf A B) C.
Proof. reflexivity. Qed.

Lemma chain_dot_4 (nbf : nat) (A B C D E : matrix) :
  chain_dot A (square nbf [B; C; D; E])
  = Np.dot nbf (Np.dot nbf (Np.dot nbf (Np.dot nbf A B) C) D) E.
Proof. reflexivity. Qed.

(** C3. For all densities [P_A], [P_B], nuclear-attraction matrices [V_A],
    [V_B], Coulomb matrix [J_B] and scalar [V_nuc] of one AO dimension, the
    electrostatic energy of the cell equals
    [2 (2 <P_A,J_B> + <V_A,P_B> + <V_B,P_A>) + V_nuc], with [<A,B>] the
    element-wise inner product [sum_KL A_KL B_KL]. *)
Theorem Elst10_documented (nbf : nat) (P_A P_B V_A V_B J_B : matrix) (V_nuc : Q) :
  Elst10 nbf P_A P_B J_B V_A V_B V_nuc
  == 2 * (2 * sum nbf (fun K => sum nbf (fun L => P_A K L * J_B K L))
          + sum nbf (fun K => sum nbf (fun L => V_A K L * P_B K L))
          + sum nbf (fun K => sum nbf (fun L => V_B K L * P_A K L)))
     + V_nuc.
Proof.
  unfold Elst10. cbv zeta.
  rewrite !vdot_frobenius. unfold frobenius, sum2. reflexivity.
Qed.

(** C2. For all matrices of one AO dimension, the first-order exchange energy
    of the cell equals the documented five-term expression, in which every
    chained product is the left-to-right sequence of matrix
    multiplications and every bracket the element-wise inner product. *)
Theorem Exch100_documented (nbf : nat)
  (P_A P_B S_ao F_A F_B w_A w_B K_A K_AB : matrix) :
  Exch100 nbf P_A P_B S_ao F_A F_B w_A w_B K_A K_AB
  == Exch_documented nbf P_A P_B S_ao F_A F_B w_A w_B K_A K_AB.
Proof.
  unfold Exch100, Exch_documented. cbv zeta.
  rewrite !chain_dot_2, !chain_dot_4, !vdot_frobenius.
  unfold Np.add. ring.
Qed.

(** ** Linearity of the four-index contraction *)

Lemma sum4_plus (n1 n2 n3 n4 : nat) (f g : nat -> nat -> nat -> nat -> Q) :
  sum4 n1 n2 n3 n4 (fun i j k l => f i j k l + g i j k l)
  == sum4 n1 n2 n3 n4 f + sum4 n1 n2 n3 n4 g.
Proof.
  unfold sum4.
  rewrite <- sum_plus; apply sum_ext; intros i _.
  rewrite <- sum_plus; apply sum_ext; intros j _.
  rewrite <- sum_plus; apply sum_ext; intros k _.
  apply sum_plus.
Qed.

Lemma sum4_scale (n1 n2 n3 n4 : nat) (c : Q) (f : nat -> nat -> nat -> nat -> Q) :
  sum4 n1 n2 n3 n4 (fun i j k l => c * f i j k l) == c * sum4 n1 n2 n3 n4 f.
Proof.
  unfold sum4.
  rewrite <- sum_scale; apply sum_ext; intros i _.
  rewrite <- sum_scale; apply sum_ext; intros j _.
  rewrite <- sum_scale; apply sum_ext; intros k _.
  apply sum_scale.
Qed.

Section Collect.
Variables n1 n2 n3 n4 : nat.
Variables f g : nat -> nat -> nat -> nat -> Q.
Variables x y c : Q.
Hypothesis Hx : x == sum4 n1 n2 n3 n4 f.
Hypothesis Hy : y == sum4 n1 n2 n3 n4 g.

Lemma collect_plus :
  x + y == sum4 n1 n2 n3 n4 (fun i j k l => f i j k l + g i j k l).
Proof. rewrite sum4_plus, Hx, Hy. reflexivity. Qed.

Lemma collect_scale :
  c * x == sum4 n1 n2 n3 n4 (fun i j k l => c * f i j k l).
Proof. rewrite sum4_scale, Hx. reflexivity. Qed.

Lemma collect_minus :
  x - y == sum4 n1 n2 n3 n4 (fun i j k l => f i j k l - g i j k l).
Proof.
  rewrite Hx, Hy.
  transitivity (sum4 n1 n2 n3 n4 f + (- (1)) * sum4 n1 n2 n3 n4 g); [ring|].
  rewrite <- sum4_scale, <- sum4_plus.
  apply sum4_ext. intros. ring.
Qed.
End Collect.

(** Writes a combination of four-index contractions as one contraction. *)
Ltac collect :=
  first [ apply collect_plus; collect
        | apply collect_minus; collect
        | apply collect_scale; collect
        | apply Qeq_refl ].

Lemma two_stage (n : nat) (f : nat -> nat -> Q) (g h : nat -> Q) :
  sum n (fun p => sum n (fun q => f p q * g q) * h p)
  == sum n (fun p => sum n (fun q => f p q * h p * g q)).
Proof.
  apply sum_ext; intros p _. rewrite <- sum_scale_r.
  apply sum_ext; intros q _. ring.
Qed.

(** The energy assembly contracts [T] with the documented bracket, the
    exchange matrix [K[P_B S P_A]] being supplied as the transpose of [Kij]. *)
Lemma ExchDisp20_contraction (nbf : nat) (T I_ao : tensor4)
  (S_ao h_A h_B w_A w_B Pi Pj Kij : matrix) :
  ExchDisp20 nbf T I_ao S_ao h_A h_B w_A w_B Pi Pj Kij
  == ExchDisp20_documented nbf T I_ao S_ao h_A h_B w_A w_B Pi Pj (Np.T Kij).
Proof.
  unfold ExchDisp20, ExchDisp20_documented. cbv zeta.
  eapply Qeq_trans with (y := sum4 nbf nbf nbf nbf _); [collect|].
  apply sum4_ext. intros l n k m _ _ _ _. cbv beta.
  unfold ExchDisp20_bracket, chain_dot, square. cbn [map fold_left fst snd].
  pose proof (two_stage nbf (fun p q => I_ao m p k q)
                (Np.dot nbf S_ao Pi n) (Np.dot nbf S_ao Pj l)) as H1.
  pose proof (two_stage nbf (fun p q => I_ao n p l q)
                (Np.dot nbf S_ao Pi m) (Np.dot nbf S_ao Pj k)) as H2.
  cbv beta in H1, H2. rewrite H1, H2.
  ring.
Qed.

(** ** Reordering the indices of a four-index contraction *)

Lemma sum4_swap12 (n1 n2 n3 n4 : nat) (f : nat -> nat -> nat -> nat -> Q) :
  sum4 n1 n2 n3 n4 f == sum4 n2 n1 n3 n4 (fun j i k l => f i j k l).
Proof.
  unfold sum4.
  apply (sum_swap n1 n2 (fun i j => sum n3 (fun k => sum n4 (fun l => f i j k l)))).
Qed.

Lemma sum4_swap23 (n1 n2 n3 n4 : nat) (f : nat -> nat -> nat -> nat -> Q) :
  sum4 n1 n2 n3 n4 f == sum4 n1 n3 n2 n4 (fun i k j l => f i j k l).
Proof.
  unfold sum4. apply sum_ext; intros i _.
  apply (sum_swap n2 n3 (fun j k => sum n4 (fun l => f i j k l))).
Qed.

Lemma sum4_swap34 (n1 n2 n3 n4 : nat) (f : nat -> nat -> nat -> nat -> Q) :
  sum4 n1 n2 n3 n4 f == sum4 n1 n2 n4 n3 (fun i j l k => f i j k l).
Proof.
  unfold sum4. apply sum_ext; intros i _. apply sum_ext; intros j _.
  apply (sum_swap n3 n4 (fun k l => f i j k l)).
Qed.

(** One step of a reordering: apply a swap lemma to the left-hand side. *)
Ltac reorder lem := etransitivity; [apply lem | cbv beta].

Lemma sum4_reverse (n1 n2 n3 n4 : nat) (f : nat -> nat -> nat -> nat -> Q) :
  sum4 n1 n2 n3 n4 f == sum4 n4 n3 n2 n1 (fun l k j i => f i j k l).
Proof.
  reorder sum4_swap12. reorder sum4_swap23. reorder sum4_swap34.
  reorder sum4_swap12. reorder sum4_swap23. reorder sum4_swap12.
  reflexivity.
Qed.

(** The pairs of indices exchanged: (i j)(k l) -> (k l)(i j). *)
Lemma sum4_swap_pairs (n1 n2 n3 n4 : nat) (f : nat -> nat -> nat -> nat -> Q) :
  sum4 n1 n2 n3 n4 f == sum4 n3 n4 n1 n2 (fun k l i j => f i j k l).
Proof.
  reorder sum4_swap23. reorder sum4_swap12. reorder sum4_swap34.
  reorder sum4_swap23. reflexivity.
Qed.

(** ** The AO back-transformation *)

Lemma t_lnkm_documented (nr ns na nb : nat) (t : tensor4) (Ci Cj Cr Cs : matrix)
  (l n k m : nat) :
  t_lnkm nr ns na nb t Ci Cj Cr Cs l n k m
  == t_LNKM_documented nr ns na nb t Ci Cj Cr Cs l n k m.
Proof.
  unfold t_lnkm, t_LNKM_documented. cbv zeta. unfold Np.T.
  symmetry. reorder sum4_reverse. symmetry.
  unfold sum4.
  apply sum_ext; intros b _. rewrite <- sum_scale_r.
  apply sum_ext; intros a _. rewrite <- !sum_scale_r.
  apply sum_ext; intros s _. rewrite <- !sum_scale_r.
  apply sum_ext; intros r _. ring.
Qed.

Lemma ExchDisp20_documented_ext (nbf : nat) (T T' I_ao : tensor4)
  (S_ao F_A F_B w_A w_B P_A P_B K_BA K_BA' : matrix) :
  (forall l n k m, (l < nbf)%nat -> (n < nbf)%nat -> (k < nbf)%nat -> (m < nbf)%nat ->
     T l n k m == T' l n k m) ->
  mat_eq nbf nbf K_BA K_BA' ->
  ExchDisp20_documented nbf T I_ao S_ao F_A F_B w_A w_B P_A P_B K_BA
  == ExchDisp20_documented nbf T' I_ao S_ao F_A F_B w_A w_B P_A P_B K_BA'.
Proof.
  intros HT HK. unfold ExchDisp20_documented.
  apply sum4_ext. intros l n k m Hl Hn Hk Hm.
  rewrite (HT l n k m Hl Hn Hk Hm).
  unfold ExchDisp20_bracket. cbv zeta.
  rewrite (HK m l Hm Hl), (HK n k Hn Hk). reflexivity.
Qed.

(** C1. For every amplitude tensor and all dimension-consistent inputs the
    exchange-dispersion energy of the cell is the contraction of the
    back-transformed amplitude [t_LNKM = sum_rsab t_rsab C_Ka C_Mb C_Lr C_Ns]
    with the documented bracket, every term with its coefficient and its
    permutation of the four AO indices.  The code supplies the exchange
    matrix [K[P_B S P_A]] of the bracket as the transpose of [Kij]. *)
Theorem ExchDisp20_is_documented (nbf nr ns na nb : nat) (t I_ao : tensor4)
  (Ci Cj Cr Cs S_ao F_A F_B w_A w_B P_A P_B Kij K_BA : matrix) :
  mat_eq nbf nbf K_BA (Np.T Kij) ->
  ExchDisp20 nbf (t_lnkm nr ns na nb t Ci Cj Cr Cs) I_ao S_ao F_A F_B w_A w_B P_A P_B Kij
  == ExchDisp20_documented nbf (t_LNKM_documented nr ns na nb t Ci Cj Cr Cs)
       I_ao S_ao F_A F_B w_A w_B P_A P_B K_BA.
Proof.
  intros HK. rewrite ExchDisp20_contraction.
  apply ExchDisp20_documented_ext.
  - intros l n k m _ _ _ _. apply t_lnkm_documented.
  - intros i j Hi Hj. symmetry. now apply HK.
Qed.

(** C8. Replacing the amplitude tensor [t_rsab] by [c * t_rsab], all other
    inputs fixed, multiplies every entry of the back-transformed amplitude
    [t_lnkm], and the exchange-dispersion energy, by [c]. *)
Theorem ExchDisp20_linear_in_amplitude (c : Q) (nbf nr ns na nb : nat) (t I_ao : tensor4)
  (Ci Cj Cr Cs S_ao h_A h_B w_A w_B Pi Pj Kij : matrix) :
  (forall l n k m,
     t_lnkm nr ns na nb (fun r s a b => c * t r s a b) Ci Cj Cr Cs l n k m
     == c * t_lnkm nr ns na nb t Ci Cj Cr Cs l n k m)
  /\ ExchDisp20 nbf (t_lnkm nr ns na nb (fun r s a b => c * t r s a b) Ci Cj Cr Cs)
       I_ao S_ao h_A h_B w_A w_B Pi Pj Kij
     == c * ExchDisp20 nbf (t_lnkm nr ns na nb t Ci Cj Cr Cs)
            I_ao S_ao h_A h_B w_A w_B Pi Pj Kij.
Proof.
  assert (Hscale : forall l n k m,
     t_lnkm nr ns na nb (fun r s a b => c * t r s a b) Ci Cj Cr Cs l n k m
     == c * t_lnkm nr ns na nb t Ci Cj Cr Cs l n k m).
  { intros l n k m. rewrite !t_lnkm_documented. unfold t_LNKM_documented.
    rewrite <- sum4_scale. apply sum4_ext. intros. ring. }
  split; [exact Hscale|].
  rewrite !ExchDisp20_contraction.
  unfold ExchDisp20_documented. rewrite <- sum4_scale.
  apply sum4_ext. intros l n k m _ _ _ _. rewrite Hscale. ring.
Qed.

(** ** Sums of NumPy floats *)

Lemma np_eq_refl (x : npfloat) : np_eq x x.
Proof. destruct x; simpl; [reflexivity | exact Logic.I]. Qed.

Lemma np_eq_sym (x y : npfloat) : np_eq x y -> np_eq y x.
Proof. destruct x, y; simpl; intros H; try exact H. symmetry. exact H. Qed.

Lemma np_eq_trans (x y z : npfloat) : np_eq x y -> np_eq y z -> np_eq x z.
Proof.
  destruct x, y, z; simpl; intros H1 H2; try contradiction; try exact Logic.I.
  now rewrite H1.
Qed.

Lemma np_add_compat (x x' y y' : npfloat) :
  np_eq x x' -> np_eq y y' -> np_eq (np_add x y) (np_add x' y').
Proof.
  destruct x, x', y, y'; simpl; intros H1 H2; try contradiction; try exact Logic.I.
  now rewrite H1, H2.
Qed.

Lemma np_mul_compat (x x' y y' : npfloat) :
  np_eq x x' -> np_eq y y' -> np_eq (np_mul x y) (np_mul x' y').
Proof.
  destruct x, x', y, y'; simpl; intros H1 H2; try contradiction; try exact Logic.I.
  now rewrite H1, H2.
Qed.

Lemma np_sum_ext (n : nat) (f g : nat -> npfloat) :
  (forall i, (i < n)%nat -> np_eq (f i) (g i)) -> np_eq (np_sum n f) (np_sum n g).
Proof.
  induction n as [|n IH]; intros H; simpl.
  - reflexivity.
  - apply np_add_compat; [apply IH; intros i Hi; apply H; lia | apply H; lia].
Qed.

Lemma np_sum4_ext (n1 n2 n3 n4 : nat) (f g : nat -> nat -> nat -> nat -> npfloat) :
  (forall i j k l, (i < n1)%nat -> (j < n2)%nat -> (k < n3)%nat -> (l < n4)%nat ->
     np_eq (f i j k l) (g i j k l)) ->
  np_eq (np_sum4 n1 n2 n3 n4 f) (np_sum4 n1 n2 n3 n4 g).
Proof.
  intros H. unfold np_sum4.
  apply np_sum_ext; intros i Hi. apply np_sum_ext; intros j Hj.
  apply np_sum_ext; intros k Hk. apply np_sum_ext; intros l Hl. now apply H.
Qed.

(** A sum of finite terms is the finite sum of their values. *)
Lemma np_sum_finite (n : nat) (f : nat -> npfloat) (g : nat -> Q) :
  (forall i, (i < n)%nat -> np_eq (f i) (Finite (g i))) ->
  np_eq (np_sum n f) (Finite (sum n g)).
Proof.
  induction n as [|n IH]; intros H; simpl.
  - reflexivity.
  - apply (np_add_compat _ (Finite (sum n g)) _ (Finite (g n)));
      [apply IH; intros i Hi; apply H; lia | apply H; lia].
Qed.

Lemma np_sum4_finite (n1 n2 n3 n4 : nat)
  (f : nat -> nat -> nat -> nat -> npfloat) (g : nat -> nat -> nat -> nat -> Q) :
  (forall i j k l, (i < n1)%nat -> (j < n2)%nat -> (k < n3)%nat -> (l < n4)%nat ->
     np_eq (f i j k l) (Finite (g i j k l))) ->
  np_eq (np_sum4 n1 n2 n3 n4 f) (Finite (sum4 n1 n2 n3 n4 g)).
Proof.
  intros H. unfold np_sum4, sum4.
  apply np_sum_finite; intros i Hi. apply np_sum_finite; intros j Hj.
  apply np_sum_finite; intros k Hk. apply np_sum_finite; intros l Hl. now apply H.
Qed.

(** One non-finite term makes the sum non-finite. *)
Lemma np_add_NonFinite_r (x : npfloat) : np_add x NonFinite = NonFinite.
Proof. destruct x; reflexivity. Qed.

Lemma np_sum_nonfinite (n i : nat) (f : nat -> npfloat) :
  (i < n)%nat -> f i = NonFinite -> np_sum n f = NonFinite.
Proof.
  induction n as [|n IH]; intros Hi Hf; [lia|]. simpl.
  destruct (Nat.eq_dec i n) as [->|Hne].
  - rewrite Hf. apply np_add_NonFinite_r.
  - rewrite IH by (trivial; lia). reflexivity.
Qed.

Lemma np_sum4_nonfinite (n1 n2 n3 n4 i j k l : nat)
  (f : nat -> nat -> nat -> nat -> npfloat) :
  (i < n1)%nat -> (j < n2)%nat -> (k < n3)%nat -> (l < n4)%nat ->
  f i j k l = NonFinite -> np_sum4 n1 n2 n3 n4 f = NonFinite.
Proof.
  intros Hi Hj Hk Hl Hf. unfold np_sum4.
  apply (np_sum_nonfinite n1 i); [exact Hi|].
  apply (np_sum_nonfinite n2 j); [exact Hj|].
  apply (np_sum_nonfinite n3 k); [exact Hk|].
  apply (np_sum_nonfinite n4 l); [exact Hl|]. exact Hf.
Qed.

(** ** The dispersion cell *)

Lemma denominator_documented (eps_a eps_b eps_r eps_s : vector) (r s a b : nat) :
  denominator eps_a eps_b eps_r eps_s r s a b == eps_a a + eps_b b - eps_r r - eps_s s.
Proof. unfold denominator. ring. Qed.

Lemma e_rsab_nonzero (eps_a eps_b eps_r eps_s : vector) (r s a b : nat) :
  ~ eps_a a + eps_b b - eps_r r - eps_s s == 0 ->
  np_eq (e_rsab eps_a eps_b eps_r eps_s r s a b)
        (Finite (1 / (eps_a a + eps_b b - eps_r r - eps_s s))).
Proof.
  intros Hnz. unfold e_rsab, np_true_divide.
  destruct (Qeq_bool _ 0) eqn:E.
  - apply Qeq_bool_iff in E. rewrite denominator_documented in E. contradiction.
  - simpl. rewrite denominator_documented. reflexivity.
Qed.

Lemma e_rsab_zero (eps_a eps_b eps_r eps_s : vector) (r s a b : nat) :
  eps_a a + eps_b b - eps_r r - eps_s s == 0 ->
  e_rsab eps_a eps_b eps_r eps_s r s a b = NonFinite.
Proof.
  intros Hz. unfold e_rsab, np_true_divide.
  rewrite <- denominator_documented in Hz.
  apply Qeq_bool_iff in Hz. rewrite Hz. reflexivity.
Qed.

(** With a nonzero denominator the amplitude is the finite number
    [v_rsab / (eps_a + eps_b - eps_r - eps_s)]. *)
Lemma t_rsab_nonzero (eps_a eps_b eps_r eps_s : vector) (v_rsab : tensor4) (r s a b : nat) :
  ~ eps_a a + eps_b b - eps_r r - eps_s s == 0 ->
  np_eq (t_rsab v_rsab (e_rsab eps_a eps_b eps_r eps_s) r s a b)
        (Finite (v_rsab r s a b / (eps_a a + eps_b b - eps_r r - eps_s s))).
Proof.
  intros Hnz. unfold t_rsab.
  pose proof (e_rsab_nonzero eps_a eps_b eps_r eps_s r s a b Hnz) as He.
  destruct (e_rsab eps_a eps_b eps_r eps_s r s a b) as [q|]; simpl in *; [|contradiction].
  rewrite He. field. exact Hnz.
Qed.

(** C4, as the code computes it.  When every denominator
    [eps_a + eps_b - eps_r - eps_s] is nonzero, the dispersion energy is the
    finite number [4 sum t_rsab v_abrs] with
    [t_rsab = v_rsab / (eps_a + eps_b - eps_r - eps_s)]: the amplitude is
    contracted with [v_abrs] alone. *)
Theorem Disp200_amplitude_form (nr ns na nb : nat) (eps_a eps_b eps_r eps_s : vector)
  (v_rsab v_abrs : tensor4) :
  (forall r s a b, (r < nr)%nat -> (s < ns)%nat -> (a < na)%nat -> (b < nb)%nat ->
     ~ eps_a a + eps_b b - eps_r r - eps_s s == 0) ->
  np_eq (Disp200 nr ns na nb (e_rsab eps_a eps_b eps_r eps_s) v_rsab v_abrs)
        (Finite (Disp_amplitude_form nr ns na nb eps_a eps_b eps_r eps_s v_rsab v_abrs)).
Proof.
  intros Hnz. unfold Disp200, Disp_amplitude_form.
  apply (np_mul_compat (Finite 4) (Finite 4) _ (Finite _)); [reflexivity|].
  apply np_sum4_finite. intros r s a b Hr Hs Ha Hb.
  specialize (Hnz r s a b Hr Hs Ha Hb).
  pose proof (e_rsab_nonzero eps_a eps_b eps_r eps_s r s a b Hnz) as He.
  destruct (e_rsab eps_a eps_b eps_r eps_s r s a b) as [q|]; simpl in *; [|contradiction].
  rewrite He. field. exact Hnz.
Qed.

Lemma Disp200_amplitude_form_witness :
  (forall r s a b, (r < 1)%nat -> (s < 1)%nat -> (a < 1)%nat -> (b < 1)%nat ->
     ~ DispExample.eps_occ a + DispExample.eps_occ b
       - DispExample.eps_virt r - DispExample.eps_virt s == 0)
  /\ np_eq (Disp200 1 1 1 1
             (e_rsab DispExample.eps_occ DispExample.eps_occ
                     DispExample.eps_virt DispExample.eps_virt)
             DispExample.v_rsab DispExample.v_abrs)
          (Finite (Disp_amplitude_form 1 1 1 1
             DispExample.eps_occ DispExample.eps_occ
             DispExample.eps_virt DispExample.eps_virt
             DispExample.v_rsab DispExample.v_abrs)).
Proof.
  split.
  - intros r s a b _ _ _ _. vm_compute. discriminate.
  - apply (Disp200_amplitude_form 1 1 1 1).
    intros r s a b _ _ _ _. vm_compute. discriminate.
Defined.

(** C4, as the specification states it, fails: with one orbital in each space,
    denominator [-4], [v_rsab = 2] and [v_abrs = 3] the cell gives
    [4 * (1 / -4) * 2 * 3 = -6], the stated expression
    [4 * (2 / -4) * 2 * 3 = -12]. *)
Lemma Disp200_not_documented :
  (forall r s a b, (r < 1)%nat -> (s < 1)%nat -> (a < 1)%nat -> (b < 1)%nat ->
     ~ DispExample.eps_occ a + DispExample.eps_occ b
       - DispExample.eps_virt r - DispExample.eps_virt s == 0)
  /\ ~ np_eq (Disp200 1 1 1 1
                (e_rsab DispExample.eps_occ DispExample.eps_occ
                        DispExample.eps_virt DispExample.eps_virt)
                DispExample.v_rsab DispExample.v_abrs)
             (Finite (Disp_documented 1 1 1 1
                DispExample.eps_occ DispExample.eps_occ
                DispExample.eps_virt DispExample.eps_virt
                DispExample.v_rsab DispExample.v_abrs)).
Proof.
  split.
  - intros r s a b _ _ _ _. vm_compute. discriminate.
  - vm_compute. discriminate.
Qed.

(** C5, as the code behaves.  When a denominator in range is zero the cell
    divides all the same: it reports no error and returns a non-finite
    number. *)
Theorem dispersion_cell_silent (nr ns na nb : nat) (eps_a eps_b eps_r eps_s : vector)
  (v_rsab v_abrs : tensor4) (r s a b : nat) :
  (r < nr)%nat -> (s < ns)%nat -> (a < na)%nat -> (b < nb)%nat ->
  eps_a a + eps_b b - eps_r r - eps_s s == 0 ->
  dispersion_cell nr ns na nb eps_a eps_b eps_r eps_s v_rsab v_abrs = Returned NonFinite.
Proof.
  intros Hr Hs Ha Hb Hz. unfold dispersion_cell, Disp200. f_equal.
  rewrite (np_sum4_nonfinite nr ns na nb r s a b); trivial.
  rewrite (e_rsab_zero _ _ _ _ _ _ _ _ Hz). reflexivity.
Qed.

Lemma dispersion_cell_silent_witness :
  (DispExample.eps_flat 0%nat + DispExample.eps_flat 0%nat
   - DispExample.eps_flat 0%nat - DispExample.eps_flat 0%nat == 0)
  /\ dispersion_cell 1 1 1 1 DispExample.eps_flat DispExample.eps_flat
       DispExample.eps_flat DispExample.eps_flat DispExample.v_rsab DispExample.v_abrs
     = Returned NonFinite.
Proof.
  split.
  - vm_compute. reflexivity.
  - apply (dispersion_cell_silent 1 1 1 1 _ _ _ _ _ _ 0 0 0 0); try lia.
    vm_compute. reflexivity.
Defined.

(** C5, as the specification states it, fails: no input makes the cell report
    a numerical instability, and with degenerate orbital energies (every
    denominator zero) it returns a non-finite number. *)
Lemma dispersion_cell_never_reports :
  (DispExample.eps_flat 0%nat + DispExample.eps_flat 0%nat
   - DispExample.eps_flat 0%nat - DispExample.eps_flat 0%nat == 0)
  /\ dispersion_cell 1 1 1 1 DispExample.eps_flat DispExample.eps_flat
       DispExample.eps_flat DispExample.eps_flat DispExample.v_rsab DispExample.v_abrs
     = Returned NonFinite
  /\ ~ (exists nr ns na nb eps_a eps_b eps_r eps_s v_rsab v_abrs,
          dispersion_cell nr ns na nb eps_a eps_b eps_r eps_s v_rsab v_abrs
          = NumericalInstability).
Proof.
  split; [vm_compute; reflexivity|]. split; [vm_compute; reflexivity|].
  intros (nr & ns & na & nb & ea & eb & er & es & v1 & v2 & H).
  unfold dispersion_cell in H. discriminate H.
Qed.

(** C10. For all [v_rsab], [v_abrs] and every denominator tensor [e_rsab],
    the dispersion energy [4 sum e_rsab v_rsab v_abrs] equals
    [4 sum t_rsab v_abrs] with the amplitude [t_rsab = v_rsab * e_rsab] that
    the exchange-dispersion step builds. *)
Theorem Disp200_from_t_rsab (nr ns na nb : nat) (e : nptensor4) (v_rsab v_abrs : tensor4) :
  np_eq (Disp200 nr ns na nb e v_rsab v_abrs)
        (np_mul (Finite 4)
           (np_sum4 nr ns na nb (fun r s a b =>
              np_mul (t_rsab v_rsab e r s a b) (Finite (v_abrs a b r s))))).
Proof.
  unfold Disp200, t_rsab.
  apply np_mul_compat; [apply np_eq_refl|].
  apply np_sum4_ext. intros r s a b _ _ _ _.
  destruct (e r s a b) as [q|]; simpl; [ring | exact Logic.I].
Qed.

(** ** Matrix algebra on the entries of the arrays *)

Lemma mat_eq_refl (r c : nat) (A : matrix) : mat_eq r c A A.
Proof. intros i j _ _. reflexivity. Qed.

Lemma mat_eq_sym (r c : nat) (A B : matrix) : mat_eq r c A B -> mat_eq r c B A.
Proof. intros H i j Hi Hj. symmetry. now apply H. Qed.

Lemma mat_eq_trans (r c : nat) (A B C : matrix) :
  mat_eq r c A B -> mat_eq r c B C -> mat_eq r c A C.
Proof. intros H1 H2 i j Hi Hj. rewrite (H1 i j Hi Hj). now apply H2. Qed.

#[export] Instance mat_eq_equivalence (n : nat) : Equivalence (mat_eq n n).
Proof.
  split.
  - intros A. apply mat_eq_refl.
  - intros A B. apply mat_eq_sym.
  - intros A B C. apply mat_eq_trans.
Qed.

(** [np.dot] reads its operands on the contraction range only. *)
Lemma dot_ext (k : nat) (A A' B B' : matrix) (i j : nat) :
  (forall l, (l < k)%nat -> A i l == A' i l) ->
  (forall l, (l < k)%nat -> B l j == B' l j) ->
  Np.dot k A B i j == Np.dot k A' B' i j.
Proof.
  intros HA HB. unfold Np.dot. apply sum_ext. intros l Hl.
  rewrite (HA l Hl), (HB l Hl). reflexivity.
Qed.

#[export] Instance dot_proper (n : nat) :
  Proper (mat_eq n n ==> mat_eq n n ==> mat_eq n n) (Np.dot n).
Proof.
  intros A A' HA B B' HB i j Hi Hj.
  apply dot_ext; intros l Hl; [now apply HA | now apply HB].
Qed.

#[export] Instance T_proper (n : nat) : Proper (mat_eq n n ==> mat_eq n n) Np.T.
Proof. intros A A' HA i j Hi Hj. unfold Np.T. now apply HA. Qed.

#[export] Instance add_proper (n : nat) :
  Proper (mat_eq n n ==> mat_eq n n ==> mat_eq n n) Np.add.
Proof.
  intros A A' HA B B' HB i j Hi Hj. unfold Np.add.
  rewrite (HA i j Hi Hj), (HB i j Hi Hj). reflexivity.
Qed.

#[export] Instance frobenius_proper (n : nat) :
  Proper (mat_eq n n ==> mat_eq n n ==> Qeq) (frobenius n n).
Proof. intros A A' HA B B' HB. now apply frobenius_ext. Qed.

#[export] Instance vdot_proper (n : nat) :
  Proper (mat_eq n n ==> mat_eq n n ==> Qeq) (Np.vdot n n).
Proof.
  intros A A' HA B B' HB. rewrite !vdot_frobenius. now apply frobenius_ext.
Qed.

(** Transposition of a product, and associativity, entry by entry. *)
Lemma dot_T (k : nat) (A B : matrix) (i j : nat) :
  Np.T (Np.dot k A B) i j == Np.dot k (Np.T B) (Np.T A) i j.
Proof.
  unfold Np.T, Np.dot. apply sum_ext. intros l _. ring.
Qed.

Lemma dot_assoc (k1 k2 : nat) (A B C : matrix) (i j : nat) :
  Np.dot k2 (Np.dot k1 A B) C i j == Np.dot k1 A (Np.dot k2 B C) i j.
Proof.
  unfold Np.dot.
  transitivity (sum k2 (fun m => sum k1 (fun l => A i l * B l m * C m j))).
  - apply sum_ext. intros m _. symmetry. apply sum_scale_r.
  - rewrite sum_swap. apply sum_ext. intros l _.
    rewrite <- sum_scale. apply sum_ext. intros m _. ring.
Qed.

Lemma frobenius_T (n : nat) (A B : matrix) :
  frobenius n n (Np.T A) (Np.T B) == frobenius n n A B.
Proof.
  unfold frobenius, sum2, Np.T.
  apply (sum_swap n n (fun i j => A j i * B j i)).
Qed.

Lemma symmetric_T (n : nat) (A : matrix) : symmetric n A -> mat_eq n n (Np.T A) A.
Proof. intros H i j Hi Hj. unfold Np.T. now apply H. Qed.

Lemma T_involutive (n : nat) (A : matrix) : mat_eq n n (Np.T (Np.T A)) A.
Proof. intros i j _ _. reflexivity. Qed.

(** A density [C C^T] is symmetric. *)
Lemma density_symmetric (n k : nat) (C : matrix) :
  symmetric n (Np.dot k C (Np.T C)).
Proof.
  intros K L _ _. unfold Np.dot, Np.T. apply sum_ext. intros a _. ring.
Qed.

(** [P' S P] is the transpose of [P S P'] for symmetric [P], [P'], [S]. *)
Lemma PSP_transpose (n : nat) (P P' S_ao : matrix) :
  symmetric n P -> symmetric n P' -> symmetric n S_ao ->
  mat_eq n n (Np.dot n (Np.dot n P' S_ao) P) (Np.T (Np.dot n (Np.dot n P S_ao) P')).
Proof.
  intros HP HP' HS i j Hi Hj.
  rewrite dot_T, dot_assoc.
  apply dot_ext; intros l Hl.
  - symmetry. unfold Np.T. now apply HP'.
  - rewrite dot_T. apply dot_ext; intros m Hm; unfold Np.T.
    + symmetry. now apply HS.
    + symmetry. now apply HP.
Qed.

(** ** The generalized Coulomb and exchange matrices *)

#[export] Instance generalized_J_proper (n : nat) (I_ao : tensor4) :
  Proper (mat_eq n n ==> mat_eq n n) (generalized_J n I_ao).
Proof.
  intros X X' HX K L _ _. unfold generalized_J.
  apply sum2_ext. intros M N HM HN. rewrite (HX M N HM HN). reflexivity.
Qed.

#[export] Instance generalized_K_proper (n : nat) (I_ao : tensor4) :
  Proper (mat_eq n n ==> mat_eq n n) (generalized_K n I_ao).
Proof.
  intros X X' HX K L _ _. unfold generalized_K.
  apply sum2_ext. intros M N HM HN. rewrite (HX M N HM HN). reflexivity.
Qed.

(** [J[X^T] = J[X]]: the second pair of the integral is symmetric. *)
Lemma generalized_J_transpose (n : nat) (I_ao : tensor4) (X : matrix) :
  pair_symmetric n I_ao ->
  mat_eq n n (generalized_J n I_ao (Np.T X)) (generalized_J n I_ao X).
Proof.
  intros HI K L HK HL. unfold generalized_J, sum2, Np.T.
  rewrite (sum_swap n n (fun M N => I_ao K L M N * X M N)).
  apply sum_ext; intros M HM. apply sum_ext; intros N HN.
  destruct (HI K L M N HK HL HM HN) as (_ & H2 & _). rewrite H2. reflexivity.
Qed.

(** [K[X^T] = K[X]^T]. *)
Lemma generalized_K_transpose (n : nat) (I_ao : tensor4) (X : matrix) :
  pair_symmetric n I_ao ->
  mat_eq n n (generalized_K n I_ao (Np.T X)) (Np.T (generalized_K n I_ao X)).
Proof.
  intros HI K L HK HL. unfold generalized_K, sum2, Np.T.
  rewrite (sum_swap n n (fun M N => I_ao L M N K * X M N)).
  apply sum_ext; intros M HM. apply sum_ext; intros N HN.
  destruct (HI K M N L HK HM HN HL) as (_ & _ & H3).
  destruct (HI N L K M HN HL HK HM) as (H1 & _ & _).
  destruct (HI L N K M HL HN HK HM) as (_ & H2 & _).
  rewrite H3, H1, H2. reflexivity.
Qed.

Lemma generalized_J_symmetric (n : nat) (I_ao : tensor4) (X : matrix) :
  pair_symmetric n I_ao -> symmetric n (generalized_J n I_ao X).
Proof.
  intros HI K L HK HL. unfold generalized_J.
  apply sum2_ext. intros M N HM HN.
  destruct (HI K L M N HK HL HM HN) as (H1 & _ & _). rewrite H1. reflexivity.
Qed.

Lemma generalized_K_symmetric (n : nat) (I_ao : tensor4) (X : matrix) :
  pair_symmetric n I_ao -> symmetric n X -> symmetric n (generalized_K n I_ao X).
Proof.
  intros HI HX K L HK HL.
  rewrite <- (generalized_K_proper n I_ao _ _ (symmetric_T n X HX) K L HK HL).
  rewrite (generalized_K_transpose n I_ao X HI K L HK HL). reflexivity.
Qed.

(** [<X, J[Y]> = <Y, J[X]>] and [<X, K[Y]> = <Y, K[X]>]. *)
Lemma frobenius_sum4 (n : nat) (X : matrix) (G : nat -> nat -> nat -> nat -> Q) :
  frobenius n n X (fun K L => sum2 n n (fun M N => G K L M N))
  == sum4 n n n n (fun K L M N => X K L * G K L M N).
Proof.
  unfold frobenius, sum2, sum4.
  apply sum_ext; intros K _. apply sum_ext; intros L _.
  rewrite <- sum_scale. apply sum_ext; intros M _. symmetry. apply sum_scale.
Qed.

Lemma frobenius_J_exchange (n : nat) (I_ao : tensor4) (X Y : matrix) :
  pair_symmetric n I_ao ->
  frobenius n n X (generalized_J n I_ao Y) == frobenius n n Y (generalized_J n I_ao X).
Proof.
  intros HI. unfold generalized_J.
  rewrite (frobenius_sum4 n X (fun K L M N => I_ao K L M N * Y M N)).
  rewrite (frobenius_sum4 n Y (fun K L M N => I_ao K L M N * X M N)).
  reorder sum4_swap_pairs.
  apply sum4_ext. intros K L M N HK HL HM HN.
  destruct (HI K L M N HK HL HM HN) as (_ & _ & H3). rewrite H3. ring.
Qed.

Lemma frobenius_K_exchange (n : nat) (I_ao : tensor4) (X Y : matrix) :
  pair_symmetric n I_ao ->
  frobenius n n X (generalized_K n I_ao Y) == frobenius n n Y (generalized_K n I_ao X).
Proof.
  intros HI. unfold generalized_K.
  rewrite (frobenius_sum4 n X (fun K L M N => I_ao K M N L * Y M N)).
  rewrite (frobenius_sum4 n Y (fun K L M N => I_ao K M N L * X M N)).
  reorder sum4_swap_pairs.
  apply sum4_ext. intros M N K L HM HN HK HL.
  destruct (HI M K L N HM HK HL HN) as (H1 & _ & _).
  destruct (HI K M L N HK HM HL HN) as (_ & H2 & _).
  rewrite H1, H2. ring.
Qed.

(** C6. For every integral tensor with the pair symmetries and all symmetric
    [P_A], [P_B], [S], the generalized operators satisfy
    [J[P_B S P_A] = J[P_A S P_B]] and [K[P_B S P_A] = K[P_A S P_B]^T]:
    building the (A,B) pair and transposing gives what the second contraction
    would give. *)
Theorem generalized_JK_reversed_pair (n : nat) (I_ao : tensor4) (P_A P_B S_ao : matrix) :
  pair_symmetric n I_ao -> symmetric n P_A -> symmetric n P_B -> symmetric n S_ao ->
  mat_eq n n (generalized_J n I_ao (Np.dot n (Np.dot n P_B S_ao) P_A))
             (generalized_J n I_ao (Np.dot n (Np.dot n P_A S_ao) P_B))
  /\ mat_eq n n (generalized_K n I_ao (Np.dot n (Np.dot n P_B S_ao) P_A))
                (Np.T (generalized_K n I_ao (Np.dot n (Np.dot n P_A S_ao) P_B))).
Proof.
  intros HI HA HB HS.
  pose proof (PSP_transpose n P_A P_B S_ao HA HB HS) as HX.
  split.
  - rewrite HX. now apply generalized_J_transpose.
  - rewrite HX. now apply generalized_K_transpose.
Qed.

(** ** Exchanging the monomer labels *)

Lemma np_add_shuffle (a b c d : npfloat) :
  np_eq (np_add (np_add a b) (np_add c d)) (np_add (np_add a c) (np_add b d)).
Proof. destruct a, b, c, d; simpl; try exact Logic.I. ring. Qed.

Lemma np_sum_zero (n : nat) : np_eq (np_sum n (fun _ => Finite 0)) (Finite 0).
Proof.
  induction n as [|n IH]; simpl; [reflexivity|].
  destruct (np_sum n (fun _ => Finite 0)); simpl in *; [rewrite IH; ring | contradiction].
Qed.

Lemma np_sum_plus (n : nat) (f g : nat -> npfloat) :
  np_eq (np_sum n (fun i => np_add (f i) (g i))) (np_add (np_sum n f) (np_sum n g)).
Proof.
  induction n as [|n IH]; cbn [np_sum]; [simpl; ring|].
  eapply np_eq_trans; [|apply np_add_shuffle].
  apply np_add_compat; [exact IH | apply np_eq_refl].
Qed.

Lemma np_sum_swap (m n : nat) (f : nat -> nat -> npfloat) :
  np_eq (np_sum m (fun i => np_sum n (fun j => f i j)))
        (np_sum n (fun j => np_sum m (fun i => f i j))).
Proof.
  induction m as [|m IH]; cbn [np_sum].
  - apply np_eq_sym, np_sum_zero.
  - eapply np_eq_trans; [|apply np_eq_sym, np_sum_plus].
    apply np_add_compat; [exact IH | apply np_eq_refl].
Qed.

Lemma np_sum4_swap12 (n1 n2 n3 n4 : nat) (f : nat -> nat -> nat -> nat -> npfloat) :
  np_eq (np_sum4 n1 n2 n3 n4 f) (np_sum4 n2 n1 n3 n4 (fun j i k l => f i j k l)).
Proof.
  unfold np_sum4.
  apply (np_sum_swap n1 n2 (fun i j => np_sum n3 (fun k => np_sum n4 (fun l => f i j k l)))).
Qed.

Lemma np_sum4_swap34 (n1 n2 n3 n4 : nat) (f : nat -> nat -> nat -> nat -> npfloat) :
  np_eq (np_sum4 n1 n2 n3 n4 f) (np_sum4 n1 n2 n4 n3 (fun i j l k => f i j k l)).
Proof.
  unfold np_sum4. apply np_sum_ext; intros i _. apply np_sum_ext; intros j _.
  apply (np_sum_swap n3 n4 (fun k l => f i j k l)).
Qed.

Lemma np_true_divide_compat (x y y' : Q) :
  y == y' -> np_eq (np_true_divide x y) (np_true_divide x y').
Proof.
  intros H. unfold np_true_divide.
  destruct (Qeq_bool y 0) eqn:E, (Qeq_bool y' 0) eqn:E'; simpl.
  - exact Logic.I.
  - apply Qeq_bool_iff in E. rewrite H in E. apply Qeq_bool_iff in E. congruence.
  - apply Qeq_bool_iff in E'. rewrite <- H in E'. apply Qeq_bool_iff in E'. congruence.
  - rewrite H. reflexivity.
Qed.

(** Dispersion: the contraction runs over the same terms in another order. *)
Lemma Disp200_swap (nr ns na nb : nat) (eps_a eps_b eps_r eps_s : vector)
  (v_rsab v_abrs : tensor4) :
  np_eq (Disp200 ns nr nb na (e_rsab eps_b eps_a eps_s eps_r)
           (fun r s a b => v_rsab s r b a) (fun a b r s => v_abrs b a s r))
        (Disp200 nr ns na nb (e_rsab eps_a eps_b eps_r eps_s) v_rsab v_abrs).
Proof.
  unfold Disp200. apply np_mul_compat; [apply np_eq_refl|].
  eapply np_eq_trans; [apply np_sum4_swap12|].
  eapply np_eq_trans; [apply np_sum4_swap34|]. cbv beta.
  apply np_sum4_ext. intros r s a b _ _ _ _.
  apply np_mul_compat; [|apply np_eq_refl].
  apply np_mul_compat; [|apply np_eq_refl].
  unfold e_rsab. apply np_true_divide_compat. unfold denominator. ring.
Qed.

(** Electrostatics: [<P_B, J[P_A]> = <P_A, J[P_B]>]. *)
Lemma Elst10_swap (n : nat) (I_ao : tensor4) (Pi Pj V_A V_B : matrix) (rep : Q) :
  pair_symmetric n I_ao ->
  Elst10 n Pj Pi (generalized_J n I_ao Pi) V_B V_A rep
  == Elst10 n Pi Pj (generalized_J n I_ao Pj) V_A V_B rep.
Proof.
  intros HI. unfold Elst10. cbv zeta. rewrite !vdot_frobenius.
  rewrite (frobenius_J_exchange n I_ao Pj Pi HI). ring.
Qed.

(** First-order exchange. *)
Lemma Exch100_swap (n : nat) (Pi Pj S_ao h_A h_B w_A w_B Kii Kjj Kij Kji : matrix) :
  symmetric n Pi -> symmetric n Pj -> symmetric n S_ao ->
  symmetric n h_A -> symmetric n h_B ->
  frobenius n n Pi Kjj == frobenius n n Pj Kii ->
  mat_eq n n Kji (Np.T Kij) ->
  Exch100 n Pj Pi S_ao h_B h_A w_B w_A Kjj Kji
  == Exch100 n Pi Pj S_ao h_A h_B w_A w_B Kii Kij.
Proof.
  intros HPi HPj HS HhA HhB HK1 HK.
  unfold Exch100. cbv zeta.
  rewrite !chain_dot_2, !chain_dot_4, !vdot_frobenius.
  pose proof (PSP_transpose n Pi Pj S_ao HPi HPj HS) as HX.
  assert (Hh : mat_eq n n (Np.add h_B h_A) (Np.T (Np.add h_A h_B))).
  { intros i j Hi Hj. unfold Np.add, Np.T.
    rewrite (HhA j i Hj Hi), (HhB j i Hj Hi). ring. }
  assert (E2 : frobenius n n (Np.dot n (Np.dot n Pj S_ao) Pi) (Np.add h_B h_A)
               == frobenius n n (Np.dot n (Np.dot n Pi S_ao) Pj) (Np.add h_A h_B)).
  { rewrite HX, Hh. apply frobenius_T. }
  assert (E5 : frobenius n n (Np.dot n (Np.dot n Pj S_ao) Pi) Kji
               == frobenius n n (Np.dot n (Np.dot n Pi S_ao) Pj) Kij).
  { rewrite HX, HK. apply frobenius_T. }
  rewrite HK1, E2, E5. ring.
Qed.

(** Exchange-induction: each direction of the run with the labels exchanged
    is the other direction of the original run. *)
Lemma ExchInd20_ab_swap (n nocc nvirt : nat)
  (C Cv CPHF S_ao Pi Pj h_A h_B w_A w_B Kii Jij Jji Kij Kji : matrix)
  (JK : matrix * matrix) :
  mat_eq n n Jji Jij -> mat_eq n n Kji (Np.T Kij) ->
  ExchInd20_ab n nocc nvirt C Cv CPHF S_ao Pj Pi h_B h_A w_B w_A Kii Jji Kji JK
  == ExchInd20_ba n nocc nvirt C Cv CPHF S_ao Pi Pj h_A h_B w_A w_B Kii Jij Kij JK.
Proof.
  intros HJ HK. unfold ExchInd20_ab, ExchInd20_ba. destruct JK as [J K]. cbv zeta.
  rewrite !chain_dot_2, !chain_dot_4.
  rewrite HJ, HK, (T_involutive n Kij). reflexivity.
Qed.

Lemma ExchInd20_ba_swap (n nocc nvirt : nat)
  (C Cv CPHF S_ao Pi Pj h_A h_B w_A w_B Kjj Jij Jji Kij Kji : matrix)
  (JK : matrix * matrix) :
  mat_eq n n Jji Jij -> mat_eq n n Kji (Np.T Kij) ->
  ExchInd20_ba n nocc nvirt C Cv CPHF S_ao Pj Pi h_B h_A w_B w_A Kjj Jji Kji JK
  == ExchInd20_ab n nocc nvirt C Cv CPHF S_ao Pi Pj h_A h_B w_A w_B Kjj Jij Kij JK.
Proof.
  intros HJ HK. unfold ExchInd20_ab, ExchInd20_ba. destruct JK as [J K]. cbv zeta.
  rewrite !chain_dot_2, !chain_dot_4.
  rewrite HJ, HK, (T_involutive n Kij). reflexivity.
Qed.

(** [A^T S B] is the transpose of [B^T S A]. *)
Lemma sandwich_transpose (n : nat) (A B S_ao : matrix) (i j : nat) :
  symmetric n S_ao ->
  Np.dot n (Np.dot n (Np.T A) S_ao) B i j == Np.dot n (Np.dot n (Np.T B) S_ao) A j i.
Proof.
  intros HS. rewrite (dot_assoc n n (Np.T B) S_ao A j i).
  unfold Np.dot, Np.T. apply sum_ext. intros l Hl.
  rewrite Qmult_comm. apply Qmult_comp; [reflexivity|].
  apply sum_ext. intros m Hm. rewrite (HS l m Hl Hm). ring.
Qed.

(** The density-like matrix of [compute_sapt_JK(B, A, tensor=B^T S A)] is the
    transpose of the one of [compute_sapt_JK(A, B, tensor=A^T S B)]. *)
Lemma tagged_density_reversed (n na nb : nat) (A B S_ao : matrix) :
  symmetric n S_ao ->
  mat_eq n n
    (Np.dot na (Np.dot nb B (Np.dot n (Np.dot n (Np.T B) S_ao) A)) (Np.T A))
    (Np.T (Np.dot nb (Np.dot na A (Np.dot n (Np.dot n (Np.T A) S_ao) B)) (Np.T B))).
Proof.
  intros HS i j _ _.
  rewrite dot_assoc, dot_T.
  apply dot_ext; intros l _; [reflexivity|].
  rewrite dot_T.
  apply dot_ext; intros a _; [|reflexivity].
  unfold Np.T at 2. now apply sandwich_transpose.
Qed.

Lemma compute_sapt_JK_reversed (n na nb : nat) (I_ao : tensor4) (A B S_ao : matrix) :
  pair_symmetric n I_ao -> symmetric n S_ao ->
  mat_eq n n
    (fst (compute_sapt_JK n nb na I_ao B A (Some (chain_dot (Np.T B) (square n [S_ao; A])))))
    (fst (compute_sapt_JK n na nb I_ao A B (Some (chain_dot (Np.T A) (square n [S_ao; B])))))
  /\ mat_eq n n
    (snd (compute_sapt_JK n nb na I_ao B A (Some (chain_dot (Np.T B) (square n [S_ao; A])))))
    (Np.T (snd (compute_sapt_JK n na nb I_ao A B
                  (Some (chain_dot (Np.T A) (square n [S_ao; B])))))).
Proof.
  intros HI HS. unfold compute_sapt_JK. cbv zeta. cbn [fst snd].
  rewrite !chain_dot_2.
  pose proof (tagged_density_reversed n na nb A B S_ao HS) as HX.
  split.
  - rewrite HX. now apply generalized_J_transpose.
  - rewrite HX. now apply generalized_K_transpose.
Qed.

(** The density-like matrix of [compute_sapt_JK(A, B, tensor=A^T S B)] is
    [P_A S P_B] for the densities [P_A = A A^T], [P_B = B B^T]. *)
Lemma tagged_density_chain (n na nb : nat) (A B S_ao : matrix) (i j : nat) :
  Np.dot nb (Np.dot na A (Np.dot n (Np.dot n (Np.T A) S_ao) B)) (Np.T B) i j
  == Np.dot n (Np.dot n (Np.dot na A (Np.T A)) S_ao) (Np.dot nb B (Np.T B)) i j.
Proof.
  rewrite <- (dot_assoc n nb (Np.dot n (Np.dot na A (Np.T A)) S_ao) B (Np.T B) i j).
  apply dot_ext; intros l _; [|reflexivity].
  rewrite <- (dot_assoc na n A (Np.dot n (Np.T A) S_ao) B i l).
  apply dot_ext; intros m _; [|reflexivity].
  symmetry. apply dot_assoc.
Qed.

(** In the run of the notebook the transpose of [Kij] is [K[P_B S P_A]]. *)
Lemma Kij_T_is_K_reversed (d : sapt.t) :
  pair_symmetric (sapt.nbf d) (sapt.ao_eri d) ->
  symmetric (sapt.nbf d) (sapt.S d) ->
  mat_eq (sapt.nbf d) (sapt.nbf d)
    (generalized_K (sapt.nbf d) (sapt.ao_eri d)
       (Np.dot (sapt.nbf d) (Np.dot (sapt.nbf d) (Run.Pj d) (sapt.S d)) (Run.Pi d)))
    (Np.T (Run.Kij d)).
Proof.
  intros HI HS.
  assert (HX : mat_eq (sapt.nbf d) (sapt.nbf d)
    (Np.dot (sapt.nbf d) (Np.dot (sapt.nbf d) (Run.Pj d) (sapt.S d)) (Run.Pi d))
    (Np.T (Np.dot (sapt.ndocc_B d)
             (Np.dot (sapt.ndocc_A d) (Run.Ci d)
                (Np.dot (sapt.nbf d) (Np.dot (sapt.nbf d) (Np.T (Run.Ci d)) (sapt.S d))
                   (Run.Cj d)))
             (Np.T (Run.Cj d))))).
  { intros i j Hi Hj.
    rewrite (PSP_transpose (sapt.nbf d) (Run.Pi d) (Run.Pj d) (sapt.S d)
               (density_symmetric _ _ _) (density_symmetric _ _ _) HS i j Hi Hj).
    unfold Np.T at 1 3. symmetry. apply tagged_density_chain. }
  rewrite HX. now apply generalized_K_transpose.
Qed.

(** The operators [w = V + 2 J] and [h = V + 2 J - K] of a monomer are
    symmetric. *)
Lemma fock_symmetric (n k : nat) (I_ao : tensor4) (V C : matrix) :
  pair_symmetric n I_ao -> symmetric n V ->
  symmetric n
    (Np.sub (Np.add V (Np.scale 2 (generalized_J n I_ao (Np.dot k C (Np.T C)))))
            (generalized_K n I_ao (Np.dot k C (Np.T C)))).
Proof.
  intros HI HV K L HK HL. unfold Np.sub, Np.add, Np.scale.
  rewrite (HV K L HK HL).
  rewrite (generalized_J_symmetric n I_ao _ HI K L HK HL).
  rewrite (generalized_K_symmetric n I_ao _ HI (density_symmetric n k C) K L HK HL).
  reflexivity.
Qed.

(** C7. For every input whose integral tensor has the pair symmetries and
    whose overlap and nuclear-attraction matrices are symmetric, exchanging
    the monomer labels in all inputs leaves the electrostatic, dispersion and
    first-order exchange energies unchanged and exchanges the two directional
    induction energies and the two directional exchange-induction
    energies. *)
Theorem swap_monomers_energies (d : sapt.t) :
  pair_symmetric (sapt.nbf d) (sapt.ao_eri d) ->
  symmetric (sapt.nbf d) (sapt.S d) ->
  symmetric (sapt.nbf d) (sapt.V_A d) ->
  symmetric (sapt.nbf d) (sapt.V_B d) ->
  Run.Elst10 (swap_monomers d) == Run.Elst10 d
  /\ np_eq (Run.Disp200 (swap_monomers d)) (Run.Disp200 d)
  /\ Run.Exch100 (swap_monomers d) == Run.Exch100 d
  /\ Run.Ind20_ba (swap_monomers d) == Run.Ind20_ab d
  /\ Run.Ind20_ab (swap_monomers d) == Run.Ind20_ba d
  /\ Run.ExchInd20_ab (swap_monomers d) == Run.ExchInd20_ba d
  /\ Run.ExchInd20_ba (swap_monomers d) == Run.ExchInd20_ab d.
Proof.
  intros HI HS HVA HVB.
  destruct (compute_sapt_JK_reversed (sapt.nbf d) (sapt.ndocc_A d) (sapt.ndocc_B d)
              (sapt.ao_eri d) (sapt.orbitals_a d) (sapt.orbitals_b d) (sapt.S d) HI HS)
    as [HJ HK].
  split; [|split; [|split; [|split; [|split; [|split]]]]].
  - apply (Elst10_swap (sapt.nbf d) (sapt.ao_eri d) (Run.Pi d) (Run.Pj d)
             (sapt.V_A d) (sapt.V_B d) (sapt.nuc_rep d) HI).
  - apply Disp200_swap.
  - apply (Exch100_swap (sapt.nbf d) (Run.Pi d) (Run.Pj d) (sapt.S d)
             (Run.h_A d) (Run.h_B d) (Run.w_A d) (Run.w_B d)
             (Run.Kii d) (Run.Kjj d) (Run.Kij d) (Run.Kij (swap_monomers d))).
    + apply density_symmetric.
    + apply density_symmetric.
    + exact HS.
    + now apply fock_symmetric.
    + now apply fock_symmetric.
    + apply frobenius_K_exchange. exact HI.
    + exact HK.
  - reflexivity.
  - reflexivity.
  - apply (ExchInd20_ab_swap (sapt.nbf d) (sapt.ndocc_B d) (sapt.nvirt_B d)
             (Run.Cj d) (Run.Cs d) (Run.CPHF_sb d) (sapt.S d) (Run.Pi d) (Run.Pj d)
             (Run.h_A d) (Run.h_B d) (Run.w_A d) (Run.w_B d) (Run.Kii d)
             (Run.Jij d) (Run.Jij (swap_monomers d)) (Run.Kij d)
             (Run.Kij (swap_monomers d)) (Run.JK_iji d) HJ HK).
  - apply (ExchInd20_ba_swap (sapt.nbf d) (sapt.ndocc_A d) (sapt.nvirt_A d)
             (Run.Ci d) (Run.Cr d) (Run.CPHF_ra d) (sapt.S d) (Run.Pi d) (Run.Pj d)
             (Run.h_A d) (Run.h_B d) (Run.w_A d) (Run.w_B d) (Run.Kjj d)
             (Run.Jij d) (Run.Jij (swap_monomers d)) (Run.Kij d)
             (Run.Kij (swap_monomers d)) (Run.JK_jij d) HJ HK).
Qed.

(** ** The dead exchange companions *)

(** C9. Whatever exchange matrices [Kjij] and [Kiji] the two extra calls of
    the JK builder return, the exchange-induction energies of the two
    directions, and with them the SAPT0 total, are the same: the energy
    assembly never reads them. *)
Theorem exchange_companions_unused (nbf na nb nr ns : nat)
  (Ci Cj Cr Cs CPHF_ra CPHF_sb S_ao Pi Pj h_A h_B w_A w_B Kii Kjj Jij Kij : matrix)
  (Jjij Jiji Kjij Kjij' Kiji Kiji' : matrix)
  (Exch100_val Elst10_val : Q) (Disp200_val : npfloat) (ExchDisp20_val Ind20r_val : Q) :
  ExchInd20_ab nbf na nr Ci Cr CPHF_ra S_ao Pi Pj h_A h_B w_A w_B Kjj Jij Kij (Jjij, Kjij)
  = ExchInd20_ab nbf na nr Ci Cr CPHF_ra S_ao Pi Pj h_A h_B w_A w_B Kjj Jij Kij (Jjij, Kjij')
  /\ ExchInd20_ba nbf nb ns Cj Cs CPHF_sb S_ao Pi Pj h_A h_B w_A w_B Kii Jij Kij (Jiji, Kiji)
     = ExchInd20_ba nbf nb ns Cj Cs CPHF_sb S_ao Pi Pj h_A h_B w_A w_B Kii Jij Kij (Jiji, Kiji')
  /\ sapt0 Exch100_val Elst10_val Disp200_val ExchDisp20_val Ind20r_val
       (ExchInd20r
          (ExchInd20_ba nbf nb ns Cj Cs CPHF_sb S_ao Pi Pj h_A h_B w_A w_B Kii Jij Kij
             (Jiji, Kiji))
          (ExchInd20_ab nbf na nr Ci Cr CPHF_ra S_ao Pi Pj h_A h_B w_A w_B Kjj Jij Kij
             (Jjij, Kjij)))
     = sapt0 Exch100_val Elst10_val Disp200_val ExchDisp20_val Ind20r_val
         (ExchInd20r
            (ExchInd20_ba nbf nb ns Cj Cs CPHF_sb S_ao Pi Pj h_A h_B w_A w_B Kii Jij Kij
               (Jiji, Kiji'))
            (ExchInd20_ab nbf na nr Ci Cr CPHF_ra S_ao Pi Pj h_A h_B w_A w_B Kjj Jij Kij
               (Jjij, Kjij'))).
Proof.
  repeat split; reflexivity.
Qed.

(** ** The theorems at the small dimer *)

(** Splits an index below 2 into its two values. *)
Ltac below2 :=
  repeat match goal with
         | H : (?i < 2)%nat |- _ =>
           destruct i as [|[|i]]; [clear H | clear H | exfalso; lia]
         end.

Lemma Example_pair_symmetric : pair_symmetric 2 Example.I_ao.
Proof.
  intros K L M N HK HL HM HN. below2; vm_compute; repeat split; reflexivity.
Qed.

Lemma Example_S_symmetric : symmetric 2 Example.S_ao.
Proof. intros K L HK HL. below2; vm_compute; reflexivity. Qed.

Lemma Example_V_A_symmetric : symmetric 2 Example.V_A.
Proof. intros K L HK HL. below2; vm_compute; reflexivity. Qed.

Lemma Example_V_B_symmetric : symmetric 2 Example.V_B.
Proof. intros K L HK HL. below2; vm_compute; reflexivity. Qed.

Lemma ExchDisp20_is_documented_witness :
  mat_eq 2 2
    (generalized_K 2 Example.I_ao
       (Np.dot 2 (Np.dot 2 (Run.Pj Example.d) Example.S_ao) (Run.Pi Example.d)))
    (Np.T (Run.Kij Example.d))
  /\ ExchDisp20 2
       (t_lnkm 1 1 1 1 Example.t (Run.Ci Example.d) (Run.Cj Example.d)
          (Run.Cr Example.d) (Run.Cs Example.d))
       Example.I_ao Example.S_ao (Run.h_A Example.d) (Run.h_B Example.d)
       (Run.w_A Example.d) (Run.w_B Example.d) (Run.Pi Example.d) (Run.Pj Example.d)
       (Run.Kij Example.d)
     == ExchDisp20_documented 2
          (t_LNKM_documented 1 1 1 1 Example.t (Run.Ci Example.d) (Run.Cj Example.d)
             (Run.Cr Example.d) (Run.Cs Example.d))
          Example.I_ao Example.S_ao (Run.h_A Example.d) (Run.h_B Example.d)
          (Run.w_A Example.d) (Run.w_B Example.d) (Run.Pi Example.d) (Run.Pj Example.d)
          (generalized_K 2 Example.I_ao
             (Np.dot 2 (Np.dot 2 (Run.Pj Example.d) Example.S_ao) (Run.Pi Example.d))).
Proof.
  pose proof (Kij_T_is_K_reversed Example.d Example_pair_symmetric Example_S_symmetric)
    as H.
  split; [exact H|].
  apply (ExchDisp20_is_documented 2 1 1 1 1). exact H.
Defined.

Lemma generalized_JK_reversed_pair_witness :
  (pair_symmetric 2 Example.I_ao /\ symmetric 2 (Run.Pi Example.d)
   /\ symmetric 2 (Run.Pj Example.d) /\ symmetric 2 Example.S_ao)
  /\ mat_eq 2 2
       (generalized_J 2 Example.I_ao
          (Np.dot 2 (Np.dot 2 (Run.Pj Example.d) Example.S_ao) (Run.Pi Example.d)))
       (generalized_J 2 Example.I_ao
          (Np.dot 2 (Np.dot 2 (Run.Pi Example.d) Example.S_ao) (Run.Pj Example.d)))
  /\ mat_eq 2 2
       (generalized_K 2 Example.I_ao
          (Np.dot 2 (Np.dot 2 (Run.Pj Example.d) Example.S_ao) (Run.Pi Example.d)))
       (Np.T (generalized_K 2 Example.I_ao
          (Np.dot 2 (Np.dot 2 (Run.Pi Example.d) Example.S_ao) (Run.Pj Example.d)))).
Proof.
  assert (HPi : symmetric 2 (Run.Pi Example.d)).
  { intros K L HK HL. below2; vm_compute; reflexivity. }
  assert (HPj : symmetric 2 (Run.Pj Example.d)).
  { intros K L HK HL. below2; vm_compute; reflexivity. }
  split.
  - split; [apply Example_pair_symmetric|].
    split; [exact HPi|]. split; [exact HPj | apply Example_S_symmetric].
  - apply (generalized_JK_reversed_pair 2 Example.I_ao
             (Run.Pi Example.d) (Run.Pj Example.d) Example.S_ao
             Example_pair_symmetric HPi HPj Example_S_symmetric).
Defined.

Lemma swap_monomers_energies_witness :
  (pair_symmetric 2 Example.I_ao /\ symmetric 2 Example.S_ao
   /\ symmetric 2 Example.V_A /\ symmetric 2 Example.V_B)
  /\ Run.Elst10 (swap_monomers Example.d) == Run.Elst10 Example.d
  /\ np_eq (Run.Disp200 (swap_monomers Example.d)) (Run.Disp200 Example.d)
  /\ Run.Exch100 (swap_monomers Example.d) == Run.Exch100 Example.d
  /\ Run.Ind20_ba (swap_monomers Example.d) == Run.Ind20_ab Example.d
  /\ Run.Ind20_ab (swap_monomers Example.d) == Run.Ind20_ba Example.d
  /\ Run.ExchInd20_ab (swap_monomers Example.d) == Run.ExchInd20_ba Example.d
  /\ Run.ExchInd20_ba (swap_monomers Example.d) == Run.ExchInd20_ab Example.d.
Proof.
  split.
  - split; [apply Example_pair_symmetric|].
    split; [apply Example_S_symmetric|].
    split; [apply Example_V_A_symmetric | apply Example_V_B_symmetric].
  - apply (swap_monomers_energies Example.d Example_pair_symmetric Example_S_symmetric
             Example_V_A_symmetric Example_V_B_symmetric).
Defined.

(** The values of the cells at the small dimer, computed. *)
Example Example_Elst10 : Run.Elst10 Example.d == 521 # 75.
Proof. vm_compute. reflexivity. Qed.

Example Example_Exch100 : Run.Exch100 Example.d == 115591 # 101250.
Proof. vm_compute. reflexivity. Qed.

Example Example_Disp200 : np_eq (Run.Disp200 Example.d) (Finite (- (8 # 275))).
Proof. vm_compute. reflexivity. Qed.

Example Example_ExchInd20_ab : Run.ExchInd20_ab Example.d == 11231 # 81000.
Proof. vm_compute. reflexivity. Qed.

Example Example_ExchInd20_ba : Run.ExchInd20_ba Example.d == - (2839 # 42000).
Proof. vm_compute. reflexivity. Qed.

(** ** The exchange-induction cell and the notebook's formula *)

Lemma sum2_plus (m n : nat) (f g : nat -> nat -> Q) :
  sum2 m n (fun i j => f i j + g i j) == sum2 m n f + sum2 m n g.
Proof.
  unfold sum2. rewrite <- sum_plus. apply sum_ext; intros i _. apply sum_plus.
Qed.

Lemma sum2_scale (m n : nat) (c : Q) (f : nat -> nat -> Q) :
  sum2 m n (fun i j => c * f i j) == c * sum2 m n f.
Proof.
  unfold sum2. rewrite <- sum_scale. apply sum_ext; intros i _. apply sum_scale.
Qed.

Section Collect2.
Variables m n : nat.
Variables f g : nat -> nat -> Q.
Variables x y c : Q.
Hypothesis Hx : x == sum2 m n f.
Hypothesis Hy : y == sum2 m n g.

Lemma collect2_plus : x + y == sum2 m n (fun i j => f i j + g i j).
Proof. rewrite sum2_plus, Hx, Hy. reflexivity. Qed.

Lemma collect2_scale : c * x == sum2 m n (fun i j => c * f i j).
Proof. rewrite sum2_scale, Hx. reflexivity. Qed.

Lemma collect2_minus : x - y == sum2 m n (fun i j => f i j - g i j).
Proof.
  rewrite Hx, Hy.
  transitivity (sum2 m n f + (- (1)) * sum2 m n g); [ring|].
  rewrite <- sum2_scale, <- sum2_plus.
  apply sum2_ext. intros. ring.
Qed.
End Collect2.

(** Writes a combination of element-wise inner products as one double sum. *)
Ltac collect2 :=
  first [ apply collect2_plus; collect2
        | apply collect2_minus; collect2
        | apply collect2_scale; collect2
        | apply Qeq_refl ].

(** The AO matrix of the CPHF amplitudes that the cell builds with
    [chain_dot(C_occ, CPHF.T, C_virt.T)] has the entries
    [sum_ar CPHF_ra C_Ka C_Lr] of the notebook's formula. *)
Lemma CPHF_ao_entries (nocc nvirt : nat) (C_occ C_virt CPHF : matrix) (K L : nat) :
  chain_dot C_occ [(nocc, Np.T CPHF); (nvirt, Np.T C_virt)] K L
  == CPHF_ao_documented nocc nvirt C_occ C_virt CPHF K L.
Proof.
  unfold chain_dot, CPHF_ao_documented. cbn [fold_left fst snd].
  unfold Np.dot, Np.T.
  rewrite (sum_swap nocc nvirt (fun a r => CPHF r a * C_occ K a * C_virt L r)).
  apply sum_ext; intros r _. rewrite <- sum_scale_r.
  apply sum_ext; intros a _. ring.
Qed.

Lemma ExchInd20_bracket_ext (n : nat)
  (S_ao F_A F_B w_A w_B P_A P_B K_B : matrix)
  (J_BA J_BA' K_AB K_AB' K_BA K_BA' J_BAB J_BAB' : matrix) :
  mat_eq n n J_BA J_BA' -> mat_eq n n K_AB K_AB' ->
  mat_eq n n K_BA K_BA' -> mat_eq n n J_BAB J_BAB' ->
  mat_eq n n (ExchInd20_bracket n S_ao F_A F_B w_A w_B P_A P_B K_B J_BA K_AB K_BA J_BAB)
             (ExchInd20_bracket n S_ao F_A F_B w_A w_B P_A P_B K_B J_BA' K_AB' K_BA' J_BAB').
Proof.
  intros HJ HKab HKba HJb K L HK' HL'. unfold ExchInd20_bracket.
  rewrite (HJ K L HK' HL'), (HKab K L HK' HL'), (HJb K L HK' HL').
  rewrite (dot_proper n _ _ (mat_eq_refl n n (Np.dot n S_ao P_B)) _ _ HKba K L HK' HL').
  rewrite (dot_proper n _ _
             (dot_proper n _ _ HKab _ _ (mat_eq_refl n n P_B))
             _ _ (mat_eq_refl n n S_ao) K L HK' HL').
  reflexivity.
Qed.

(** The cell of the direction A<-B is the element-wise inner product of the
    AO matrix of the CPHF amplitudes with the bracket of the notebook's
    formula, term by term; the code supplies [J[P_B S P_A]] as [Jij] and
    [K[P_B S P_A]] as the transpose of [Kij]. *)
Lemma ExchInd20_ab_bracket (nbf na nr : nat)
  (Ci Cr CPHF_ra S_ao Pi Pj h_A h_B w_A w_B Kjj Jij Kij Jjij Kjij J_BA K_BA : matrix) :
  mat_eq nbf nbf J_BA Jij -> mat_eq nbf nbf K_BA (Np.T Kij) ->
  ExchInd20_ab nbf na nr Ci Cr CPHF_ra S_ao Pi Pj h_A h_B w_A w_B Kjj Jij Kij (Jjij, Kjij)
  == frobenius nbf nbf (CPHF_ao_documented na nr Ci Cr CPHF_ra)
       (ExchInd20_bracket nbf S_ao h_A h_B w_A w_B Pi Pj Kjj J_BA Kij K_BA Jjij).
Proof.
  intros HJ HK.
  rewrite (frobenius_ext nbf nbf _ _ _ _
             (mat_eq_refl nbf nbf _)
             (ExchInd20_bracket_ext nbf S_ao h_A h_B w_A w_B Pi Pj Kjj
                J_BA Jij Kij Kij K_BA (Np.T Kij) Jjij Jjij HJ
                (mat_eq_refl nbf nbf Kij) HK (mat_eq_refl nbf nbf Jjij))).
  unfold ExchInd20_ab. cbv zeta.
  rewrite !chain_dot_2, !chain_dot_4, !vdot_frobenius.
  unfold frobenius.
  eapply Qeq_trans with (y := sum2 nbf nbf _); [collect2|].
  apply sum2_ext. intros K L _ _. cbv beta.
  rewrite CPHF_ao_entries. unfold ExchInd20_bracket. ring.
Qed.

(** The cell of the direction B<-A is the same expression with the
    quantities of A and of B interchanged; here the code supplies
    [K[P_B S P_A]] as the transpose of [Kij]. *)
Lemma ExchInd20_ba_bracket (nbf nb ns : nat)
  (Cj Cs CPHF_sb S_ao Pi Pj h_A h_B w_A w_B Kii Jij Kij Jiji Kiji K_BA : matrix) :
  mat_eq nbf nbf K_BA (Np.T Kij) ->
  ExchInd20_ba nbf nb ns Cj Cs CPHF_sb S_ao Pi Pj h_A h_B w_A w_B Kii Jij Kij (Jiji, Kiji)
  == frobenius nbf nbf (CPHF_ao_documented nb ns Cj Cs CPHF_sb)
       (ExchInd20_bracket nbf S_ao h_B h_A w_B w_A Pj Pi Kii Jij K_BA Kij Jiji).
Proof.
  intros HK.
  rewrite (frobenius_ext nbf nbf _ _ _ _
             (mat_eq_refl nbf nbf _)
             (ExchInd20_bracket_ext nbf S_ao h_B h_A w_B w_A Pj Pi Kii
                Jij Jij K_BA (Np.T Kij) Kij Kij Jiji Jiji (mat_eq_refl nbf nbf Jij)
                HK (mat_eq_refl nbf nbf Kij) (mat_eq_refl nbf nbf Jiji))).
  unfold ExchInd20_ba. cbv zeta.
  rewrite !chain_dot_2, !chain_dot_4, !vdot_frobenius.
  unfold frobenius.
  eapply Qeq_trans with (y := sum2 nbf nbf _); [collect2|].
  apply sum2_ext. intros K L _ _. cbv beta.
  rewrite CPHF_ao_entries. unfold ExchInd20_bracket. ring.
Qed.

(** ** The generalized matrices of the run *)

Lemma pointwise_mat_eq (r c : nat) (A B : matrix) :
  (forall i j, A i j == B i j) -> mat_eq r c A B.
Proof. intros H i j _ _. apply H. Qed.

(** A chain of three and of five factors, regrouped. *)
Lemma dot_chain3 (k1 k2 : nat) (A B C : matrix) (i j : nat) :
  Np.dot k1 A (Np.dot k2 B C) i j == Np.dot k2 (Np.dot k1 A B) C i j.
Proof. symmetry. apply dot_assoc. Qed.

(** The density-like matrix of [compute_sapt_JK(C, C, tensor=C^T M C)] is
    [P M P] for the density [P = C C^T]. *)
Lemma doubly_tagged_density (n k : nat) (C S_ao P' : matrix) (i j : nat) :
  Np.dot k (Np.dot k C
     (Np.dot n (Np.dot n (Np.dot n (Np.dot n (Np.T C) S_ao) P') S_ao) C)) (Np.T C) i j
  == Np.dot n (Np.dot n (Np.dot n (Np.dot n (Np.dot k C (Np.T C)) S_ao) P') S_ao)
       (Np.dot k C (Np.T C)) i j.
Proof.
  transitivity
    (Np.dot k (Np.dot k C
       (Np.dot n (Np.dot n (Np.T C) (Np.dot n (Np.dot n S_ao P') S_ao)) C)) (Np.T C) i j).
  - apply dot_ext; intros l _; [|reflexivity].
    apply dot_ext; intros m _; [reflexivity|].
    apply dot_ext; intros p _; [|reflexivity].
    rewrite (dot_chain3 n n (Np.T C) (Np.dot n S_ao P') S_ao m p).
    apply dot_ext; intros q _; [|reflexivity].
    apply dot_assoc.
  - rewrite (tagged_density_chain n k k C C (Np.dot n (Np.dot n S_ao P') S_ao) i j).
    apply dot_ext; intros l _; [|reflexivity].
    rewrite (dot_chain3 n n (Np.dot k C (Np.T C)) (Np.dot n S_ao P') S_ao i l).
    apply dot_ext; intros m _; [|reflexivity].
    apply dot_chain3.
Qed.

(** X1. The pair [Jij, Kij] that the notebook builds from the orbitals and
    the tag tensor [Ci^T S Cj] is the pair [J[P_A S P_B]], [K[P_A S P_B]] of
    the densities [P_A = Ci Ci^T] and [P_B = Cj Cj^T]. *)
Theorem Jij_Kij_of_densities (d : sapt.t) :
  mat_eq (sapt.nbf d) (sapt.nbf d) (Run.Jij d)
    (generalized_J (sapt.nbf d) (sapt.ao_eri d)
       (Np.dot (sapt.nbf d) (Np.dot (sapt.nbf d) (Run.Pi d) (sapt.S d)) (Run.Pj d)))
  /\ mat_eq (sapt.nbf d) (sapt.nbf d) (Run.Kij d)
       (generalized_K (sapt.nbf d) (sapt.ao_eri d)
          (Np.dot (sapt.nbf d) (Np.dot (sapt.nbf d) (Run.Pi d) (sapt.S d)) (Run.Pj d))).
Proof.
  pose proof (pointwise_mat_eq (sapt.nbf d) (sapt.nbf d) _ _
                (tagged_density_chain (sapt.nbf d) (sapt.ndocc_A d) (sapt.ndocc_B d)
                   (Run.Ci d) (Run.Cj d) (sapt.S d))) as HX.
  split.
  - apply (generalized_J_proper (sapt.nbf d) (sapt.ao_eri d) _ _ HX).
  - apply (generalized_K_proper (sapt.nbf d) (sapt.ao_eri d) _ _ HX).
Qed.

(** X2. The extra Coulomb matrices of the exchange-induction step are
    [Jjij = J[P_B S P_A S P_B]] and [Jiji = J[P_A S P_B S P_A]]. *)
Theorem Jjij_Jiji_of_densities (d : sapt.t) :
  mat_eq (sapt.nbf d) (sapt.nbf d) (fst (Run.JK_jij d))
    (generalized_J (sapt.nbf d) (sapt.ao_eri d)
       (Np.dot (sapt.nbf d) (Np.dot (sapt.nbf d) (Np.dot (sapt.nbf d)
          (Np.dot (sapt.nbf d) (Run.Pj d) (sapt.S d)) (Run.Pi d)) (sapt.S d)) (Run.Pj d)))
  /\ mat_eq (sapt.nbf d) (sapt.nbf d) (fst (Run.JK_iji d))
       (generalized_J (sapt.nbf d) (sapt.ao_eri d)
          (Np.dot (sapt.nbf d) (Np.dot (sapt.nbf d) (Np.dot (sapt.nbf d)
             (Np.dot (sapt.nbf d) (Run.Pi d) (sapt.S d)) (Run.Pj d)) (sapt.S d)) (Run.Pi d))).
Proof.
  split.
  - apply (generalized_J_proper (sapt.nbf d) (sapt.ao_eri d) _ _
             (pointwise_mat_eq (sapt.nbf d) (sapt.nbf d) _ _
                (doubly_tagged_density (sapt.nbf d) (sapt.ndocc_B d)
                   (Run.Cj d) (sapt.S d) (Run.Pi d)))).
  - apply (generalized_J_proper (sapt.nbf d) (sapt.ao_eri d) _ _
             (pointwise_mat_eq (sapt.nbf d) (sapt.nbf d) _ _
                (doubly_tagged_density (sapt.nbf d) (sapt.ndocc_A d)
                   (Run.Ci d) (sapt.S d) (Run.Pj d)))).
Qed.

(** In the run [Jij] is also [J[P_B S P_A]]. *)
Lemma Jij_is_J_reversed (d : sapt.t) :
  pair_symmetric (sapt.nbf d) (sapt.ao_eri d) ->
  symmetric (sapt.nbf d) (sapt.S d) ->
  mat_eq (sapt.nbf d) (sapt.nbf d)
    (generalized_J (sapt.nbf d) (sapt.ao_eri d)
       (Np.dot (sapt.nbf d) (Np.dot (sapt.nbf d) (Run.Pj d) (sapt.S d)) (Run.Pi d)))
    (Run.Jij d).
Proof.
  intros HI HS.
  pose proof (PSP_transpose (sapt.nbf d) (Run.Pi d) (Run.Pj d) (sapt.S d)
                (density_symmetric _ _ _) (density_symmetric _ _ _) HS) as HX.
  pose proof (pointwise_mat_eq (sapt.nbf d) (sapt.nbf d) _ _
                (tagged_density_chain (sapt.nbf d) (sapt.ndocc_A d) (sapt.ndocc_B d)
                   (Run.Ci d) (Run.Cj d) (sapt.S d))) as HT.
  rewrite HX, (generalized_J_transpose (sapt.nbf d) (sapt.ao_eri d) _ HI).
  symmetry. apply (generalized_J_proper (sapt.nbf d) (sapt.ao_eri d) _ _ HT).
Qed.

(** X3. In a run whose integral tensor has the pair symmetries and whose
    overlap is symmetric, the exchange-induction energy of the direction
    A<-B is the notebook's formula: the inner product of [C_KL = C^a_r C_Ka C_Lr]
    with the bracket built from [K^B], [J[P_B S P_A]], [K[P_A S P_B]],
    [K[P_B S P_A]] and [J[P_B S P_A S P_B]]. *)
Theorem ExchInd20_ab_documented (d : sapt.t) :
  pair_symmetric (sapt.nbf d) (sapt.ao_eri d) ->
  symmetric (sapt.nbf d) (sapt.S d) ->
  Run.ExchInd20_ab d
  == frobenius (sapt.nbf d) (sapt.nbf d)
       (CPHF_ao_documented (sapt.ndocc_A d) (sapt.nvirt_A d)
          (Run.Ci d) (Run.Cr d) (Run.CPHF_ra d))
       (ExchInd20_bracket (sapt.nbf d) (sapt.S d)
          (Run.h_A d) (Run.h_B d) (Run.w_A d) (Run.w_B d) (Run.Pi d) (Run.Pj d)
          (generalized_K (sapt.nbf d) (sapt.ao_eri d) (Run.Pj d))
          (generalized_J (sapt.nbf d) (sapt.ao_eri d)
             (Np.dot (sapt.nbf d) (Np.dot (sapt.nbf d) (Run.Pj d) (sapt.S d)) (Run.Pi d)))
          (generalized_K (sapt.nbf d) (sapt.ao_eri d)
             (Np.dot (sapt.nbf d) (Np.dot (sapt.nbf d) (Run.Pi d) (sapt.S d)) (Run.Pj d)))
          (generalized_K (sapt.nbf d) (sapt.ao_eri d)
             (Np.dot (sapt.nbf d) (Np.dot (sapt.nbf d) (Run.Pj d) (sapt.S d)) (Run.Pi d)))
          (generalized_J (sapt.nbf d) (sapt.ao_eri d)
             (Np.dot (sapt.nbf d) (Np.dot (sapt.nbf d) (Np.dot (sapt.nbf d)
                (Np.dot (sapt.nbf d) (Run.Pj d) (sapt.S d)) (Run.Pi d)) (sapt.S d))
                (Run.Pj d)))).
Proof.
  intros HI HS.
  pose proof (pointwise_mat_eq (sapt.nbf d) (sapt.nbf d) _ _
                (tagged_density_chain (sapt.nbf d) (sapt.ndocc_A d) (sapt.ndocc_B d)
                   (Run.Ci d) (Run.Cj d) (sapt.S d))) as HT.
  pose proof (pointwise_mat_eq (sapt.nbf d) (sapt.nbf d) _ _
                (doubly_tagged_density (sapt.nbf d) (sapt.ndocc_B d)
                   (Run.Cj d) (sapt.S d) (Run.Pi d))) as HD.
  unfold Run.ExchInd20_ab.
  change (Run.JK_jij d) with (fst (Run.JK_jij d), snd (Run.JK_jij d)).
  rewrite (ExchInd20_ab_bracket (sapt.nbf d) (sapt.ndocc_A d) (sapt.nvirt_A d)
             (Run.Ci d) (Run.Cr d) (Run.CPHF_ra d) (sapt.S d) (Run.Pi d) (Run.Pj d)
             (Run.h_A d) (Run.h_B d) (Run.w_A d) (Run.w_B d) (Run.Kjj d)
             (Run.Jij d) (Run.Kij d) (fst (Run.JK_jij d)) (snd (Run.JK_jij d))
             _ _ (Jij_is_J_reversed d HI HS) (Kij_T_is_K_reversed d HI HS)).
  apply frobenius_ext; [apply mat_eq_refl|].
  apply ExchInd20_bracket_ext.
  - apply mat_eq_refl.
  - apply (generalized_K_proper (sapt.nbf d) (sapt.ao_eri d) _ _ HT).
  - apply mat_eq_refl.
  - apply (generalized_J_proper (sapt.nbf d) (sapt.ao_eri d) _ _ HD).
Qed.

(** X4. Under the same conditions the energy of the direction B<-A is the
    formula with the quantities of A and of B interchanged. *)
Theorem ExchInd20_ba_documented (d : sapt.t) :
  pair_symmetric (sapt.nbf d) (sapt.ao_eri d) ->
  symmetric (sapt.nbf d) (sapt.S d) ->
  Run.ExchInd20_ba d
  == frobenius (sapt.nbf d) (sapt.nbf d)
       (CPHF_ao_documented (sapt.ndocc_B d) (sapt.nvirt_B d)
          (Run.Cj d) (Run.Cs d) (Run.CPHF_sb d))
       (ExchInd20_bracket (sapt.nbf d) (sapt.S d)
          (Run.h_B d) (Run.h_A d) (Run.w_B d) (Run.w_A d) (Run.Pj d) (Run.Pi d)
          (generalized_K (sapt.nbf d) (sapt.ao_eri d) (Run.Pi d))
          (generalized_J (sapt.nbf d) (sapt.ao_eri d)
             (Np.dot (sapt.nbf d) (Np.dot (sapt.nbf d) (Run.Pi d) (sapt.S d)) (Run.Pj d)))
          (generalized_K (sapt.nbf d) (sapt.ao_eri d)
             (Np.dot (sapt.nbf d) (Np.dot (sapt.nbf d) (Run.Pj d) (sapt.S d)) (Run.Pi d)))
          (generalized_K (sapt.nbf d) (sapt.ao_eri d)
             (Np.dot (sapt.nbf d) (Np.dot (sapt.nbf d) (Run.Pi d) (sapt.S d)) (Run.Pj d)))
          (generalized_J (sapt.nbf d) (sapt.ao_eri d)
             (Np.dot (sapt.nbf d) (Np.dot (sapt.nbf d) (Np.dot (sapt.nbf d)
                (Np.dot (sapt.nbf d) (Run.Pi d) (sapt.S d)) (Run.Pj d)) (sapt.S d))
                (Run.Pi d)))).
Proof.
  intros HI HS.
  pose proof (pointwise_mat_eq (sapt.nbf d) (sapt.nbf d) _ _
                (tagged_density_chain (sapt.nbf d) (sapt.ndocc_A d) (sapt.ndocc_B d)
                   (Run.Ci d) (Run.Cj d) (sapt.S d))) as HT.
  pose proof (pointwise_mat_eq (sapt.nbf d) (sapt.nbf d) _ _
                (doubly_tagged_density (sapt.nbf d) (sapt.ndocc_A d)
                   (Run.Ci d) (sapt.S d) (Run.Pj d))) as HD.
  unfold Run.ExchInd20_ba.
  change (Run.JK_iji d) with (fst (Run.JK_iji d), snd (Run.JK_iji d)).
  rewrite (ExchInd20_ba_bracket (sapt.nbf d) (sapt.ndocc_B d) (sapt.nvirt_B d)
             (Run.Cj d) (Run.Cs d) (Run.CPHF_sb d) (sapt.S d) (Run.Pi d) (Run.Pj d)
             (Run.h_A d) (Run.h_B d) (Run.w_A d) (Run.w_B d) (Run.Kii d)
             (Run.Jij d) (Run.Kij d) (fst (Run.JK_iji d)) (snd (Run.JK_iji d))
             _ (Kij_T_is_K_reversed d HI HS)).
  apply frobenius_ext; [apply mat_eq_refl|].
  apply ExchInd20_bracket_ext.
  - apply (generalized_J_proper (sapt.nbf d) (sapt.ao_eri d) _ _ HT).
  - apply mat_eq_refl.
  - apply (generalized_K_proper (sapt.nbf d) (sapt.ao_eri d) _ _ HT).
  - apply (generalized_J_proper (sapt.nbf d) (sapt.ao_eri d) _ _ HD).
Qed.

(** ** More on the exchange-dispersion cell *)

(** X5. The back-transformation and the exchange-dispersion energy are
    additive in the amplitude tensor: for [t1 + t2] they give the sum of what
    they give for [t1] and for [t2]. *)
Theorem ExchDisp20_additive_in_amplitude (nbf nr ns na nb : nat) (t1 t2 I_ao : tensor4)
  (Ci Cj Cr Cs S_ao h_A h_B w_A w_B Pi Pj Kij : matrix) :
  (forall l n k m,
     t_lnkm nr ns na nb (fun r s a b => t1 r s a b + t2 r s a b) Ci Cj Cr Cs l n k m
     == t_lnkm nr ns na nb t1 Ci Cj Cr Cs l n k m
        + t_lnkm nr ns na nb t2 Ci Cj Cr Cs l n k m)
  /\ ExchDisp20 nbf
       (t_lnkm nr ns na nb (fun r s a b => t1 r s a b + t2 r s a b) Ci Cj Cr Cs)
       I_ao S_ao h_A h_B w_A w_B Pi Pj Kij
     == ExchDisp20 nbf (t_lnkm nr ns na nb t1 Ci Cj Cr Cs)
          I_ao S_ao h_A h_B w_A w_B Pi Pj Kij
        + ExchDisp20 nbf (t_lnkm nr ns na nb t2 Ci Cj Cr Cs)
            I_ao S_ao h_A h_B w_A w_B Pi Pj Kij.
Proof.
  assert (Hadd : forall l n k m,
     t_lnkm nr ns na nb (fun r s a b => t1 r s a b + t2 r s a b) Ci Cj Cr Cs l n k m
     == t_lnkm nr ns na nb t1 Ci Cj Cr Cs l n k m
        + t_lnkm nr ns na nb t2 Ci Cj Cr Cs l n k m).
  { intros l n k m. rewrite !t_lnkm_documented. unfold t_LNKM_documented.
    rewrite <- sum4_plus. apply sum4_ext. intros. ring. }
  split; [exact Hadd|].
  rewrite !ExchDisp20_contraction.
  unfold ExchDisp20_documented. rewrite <- sum4_plus.
  apply sum4_ext. intros l n k m _ _ _ _. rewrite Hadd. ring.
Qed.

Lemma pair_exchange (n : nat) (I_ao : tensor4) (K L M N : nat) :
  pair_symmetric n I_ao ->
  (K < n)%nat -> (L < n)%nat -> (M < n)%nat -> (N < n)%nat ->
  I_ao K L M N == I_ao M N K L.
Proof. intros HI HK HL HM HN. now destruct (HI K L M N HK HL HM HN) as (_ & _ & H3). Qed.

Section PairExchangeInSums.
Variable n : nat.
Variable I_ao : tensor4.
Hypothesis HI : pair_symmetric n I_ao.
Variables K L M : nat.
Hypothesis HK : (K < n)%nat.
Hypothesis HL : (L < n)%nat.
Hypothesis HM : (M < n)%nat.

Lemma sum_pair_exchange_4 (Y : nat -> Q) :
  sum n (fun q => I_ao M q K L * Y q) == sum n (fun q => I_ao K L M q * Y q).
Proof.
  apply sum_ext. intros q Hq. rewrite (pair_exchange n I_ao M q K L); trivial. reflexivity.
Qed.

Lemma sum_pair_exchange_3 (Y : nat -> Q) :
  sum n (fun p => I_ao p M K L * Y p) == sum n (fun p => I_ao K L p M * Y p).
Proof.
  apply sum_ext. intros p Hp. rewrite (pair_exchange n I_ao p M K L); trivial. reflexivity.
Qed.

Lemma sum2_pair_exchange (N : nat) (Y Z : nat -> Q) :
  (N < n)%nat ->
  sum n (fun s => sum n (fun q => I_ao K s M q * Y s * Z q))
  == sum n (fun s => sum n (fun q => I_ao M s K q * Z s * Y q)).
Proof.
  intros HN.
  rewrite (sum_swap n n (fun s q => I_ao K s M q * Y s * Z q)).
  apply sum_ext; intros s Hs. apply sum_ext; intros q Hq.
  rewrite (pair_exchange n I_ao K q M s); trivial. ring.
Qed.
End PairExchangeInSums.

(** The bracket with the labels exchanged, at the indices [M, N, K, L], is
    the bracket at [K, L, M, N]. *)
Lemma ExchDisp20_bracket_swap (n : nat) (I_ao : tensor4)
  (S_ao F_A F_B w_A w_B P_A P_B K_AB K_BA : matrix) (K L M N : nat) :
  pair_symmetric n I_ao -> mat_eq n n K_AB (Np.T K_BA) ->
  (K < n)%nat -> (L < n)%nat -> (M < n)%nat -> (N < n)%nat ->
  ExchDisp20_bracket n I_ao S_ao F_B F_A w_B w_A P_B P_A K_AB M N K L
  == ExchDisp20_bracket n I_ao S_ao F_A F_B w_A w_B P_A P_B K_BA K L M N.
Proof.
  intros HI HKT HK HL HM HN. unfold ExchDisp20_bracket. cbv zeta.
  rewrite (pair_exchange n I_ao M L K N HI HM HL HK HN).
  rewrite (sum_pair_exchange_4 n I_ao HI K L M HK HL HM
             (Np.dot n (Np.dot n (Np.dot n S_ao P_A) S_ao) P_B N)).
  rewrite (sum_pair_exchange_3 n I_ao HI K L N HK HL HN
             (Np.dot n (Np.dot n (Np.dot n S_ao P_A) S_ao) P_B M)).
  rewrite <- (sum_pair_exchange_4 n I_ao HI M N K HM HN HK
                (Np.dot n (Np.dot n (Np.dot n S_ao P_B) S_ao) P_A L)).
  rewrite <- (sum_pair_exchange_3 n I_ao HI M N L HM HN HL
                (Np.dot n (Np.dot n (Np.dot n S_ao P_B) S_ao) P_A K)).
  rewrite (sum2_pair_exchange n I_ao HI K M HK HM N
             (Np.dot n S_ao P_A N) (Np.dot n S_ao P_B L) HN).
  rewrite (sum2_pair_exchange n I_ao HI L N HL HN K
             (Np.dot n S_ao P_A M) (Np.dot n S_ao P_B K) HK).
  rewrite (HKT K N HK HN), (HKT L M HL HM). unfold Np.T. ring.
Qed.

(** The back-transformed amplitude of the run with the labels exchanged. *)
Lemma t_lnkm_swap (nr ns na nb : nat) (t : tensor4) (Ci Cj Cr Cs : matrix) (l n k m : nat) :
  t_lnkm ns nr nb na (fun r s a b => t s r b a) Cj Ci Cs Cr l n k m
  == t_lnkm nr ns na nb t Ci Cj Cr Cs n l m k.
Proof.
  rewrite !t_lnkm_documented. unfold t_LNKM_documented.
  reorder sum4_swap12. reorder sum4_swap34.
  apply sum4_ext. intros. ring.
Qed.

(** X6. Exchanging the monomer labels in the inputs of the exchange-dispersion
    cell (the orbitals, the operators of A and of B, the indices of the
    amplitude, and [Kij] replaced by its transpose) leaves the
    exchange-dispersion energy unchanged, when the integral tensor has the
    pair symmetries. *)
Theorem ExchDisp20_swap (nbf nr ns na nb : nat) (t I_ao : tensor4)
  (Ci Cj Cr Cs S_ao h_A h_B w_A w_B Pi Pj Kij Kji : matrix) :
  pair_symmetric nbf I_ao -> mat_eq nbf nbf Kji (Np.T Kij) ->
  ExchDisp20 nbf (t_lnkm ns nr nb na (fun r s a b => t s r b a) Cj Ci Cs Cr)
    I_ao S_ao h_B h_A w_B w_A Pj Pi Kji
  == ExchDisp20 nbf (t_lnkm nr ns na nb t Ci Cj Cr Cs)
       I_ao S_ao h_A h_B w_A w_B Pi Pj Kij.
Proof.
  intros HI HK. rewrite !ExchDisp20_contraction. unfold ExchDisp20_documented.
  reorder sum4_swap12. reorder sum4_swap34.
  apply sum4_ext. intros l n k m Hl Hn Hk Hm.
  rewrite t_lnkm_swap.
  rewrite (ExchDisp20_bracket_swap nbf I_ao S_ao h_A h_B w_A w_B Pi Pj
             (Np.T Kji) (Np.T Kij) k l m n HI); trivial.
  - reflexivity.
  - intros i j Hi Hj. unfold Np.T. rewrite (HK j i Hj Hi). reflexivity.
Qed.

(** ** More on the dispersion cell *)

Lemma sum_nonpos (n : nat) (f : nat -> Q) :
  (forall i, (i < n)%nat -> f i <= 0) -> sum n f <= 0.
Proof.
  induction n as [|n IH]; intros H; simpl.
  - apply Qle_refl.
  - setoid_replace 0 with (0 + 0) by ring.
    apply Qplus_le_compat; [apply IH; intros i Hi; apply H; lia | apply H; lia].
Qed.

Lemma sum4_nonpos (n1 n2 n3 n4 : nat) (f : nat -> nat -> nat -> nat -> Q) :
  (forall i j k l, (i < n1)%nat -> (j < n2)%nat -> (k < n3)%nat -> (l < n4)%nat ->
     f i j k l <= 0) ->
  sum4 n1 n2 n3 n4 f <= 0.
Proof.
  intros H. unfold sum4.
  apply sum_nonpos; intros i Hi. apply sum_nonpos; intros j Hj.
  apply sum_nonpos; intros k Hk. apply sum_nonpos; intros l Hl. now apply H.
Qed.

Lemma sum4_zero (n1 n2 n3 n4 : nat) : sum4 n1 n2 n3 n4 (fun _ _ _ _ => 0) == 0.
Proof.
  unfold sum4.
  transitivity (sum n1 (fun _ => 0)); [apply sum_ext; intros i _ | apply sum_zero].
  transitivity (sum n2 (fun _ => 0)); [apply sum_ext; intros j _ | apply sum_zero].
  transitivity (sum n3 (fun _ => 0)); [apply sum_ext; intros k _ | apply sum_zero].
  apply sum_zero.
Qed.

(** A square divided by a negative number is not positive. *)
Lemma square_over_negative (v x : Q) : x < 0 -> 1 / x * v * v <= 0.
Proof.
  intros Hx.
  assert (Hnz : ~ x == 0) by (intros E; rewrite E in Hx; discriminate Hx).
  assert (Hpos : 0 < - x).
  { setoid_replace 0 with (- 0) by ring. now apply Qopp_lt_compat. }
  assert (Hinv : 0 <= / (- x)) by (apply Qlt_le_weak, Qinv_lt_0_compat, Hpos).
  assert (Hsq : 0 <= v * v).
  { destruct (Qlt_le_dec v 0) as [Hv|Hv].
    - setoid_replace (v * v) with ((- v) * (- v)) by ring.
      assert (0 <= - v).
      { setoid_replace 0 with (- 0) by ring. apply Qopp_le_compat. now apply Qlt_le_weak. }
      now apply Qmult_le_0_compat.
    - now apply Qmult_le_0_compat. }
  setoid_replace (1 / x * v * v) with (- (/ (- x) * (v * v))) by (field; exact Hnz).
  setoid_replace 0 with (- 0) by ring.
  apply Qopp_le_compat. now apply Qmult_le_0_compat.
Qed.

(** X7. When no denominator vanishes and the slice [v_abrs] is zero, the
    dispersion energy is zero. *)
Theorem Disp200_vanishes (nr ns na nb : nat) (eps_a eps_b eps_r eps_s : vector)
  (v_rsab v_abrs : tensor4) :
  (forall r s a b, (r < nr)%nat -> (s < ns)%nat -> (a < na)%nat -> (b < nb)%nat ->
     ~ eps_a a + eps_b b - eps_r r - eps_s s == 0) ->
  (forall r s a b, (r < nr)%nat -> (s < ns)%nat -> (a < na)%nat -> (b < nb)%nat ->
     v_abrs a b r s == 0) ->
  np_eq (Disp200 nr ns na nb (e_rsab eps_a eps_b eps_r eps_s) v_rsab v_abrs) (Finite 0).
Proof.
  intros Hnz Hv. unfold Disp200.
  apply np_eq_trans with (y := np_mul (Finite 4) (Finite (sum4 nr ns na nb (fun _ _ _ _ => 0)))).
  - apply np_mul_compat; [apply np_eq_refl|].
    apply np_sum4_finite. intros r s a b Hr Hs Ha Hb.
    pose proof (e_rsab_nonzero eps_a eps_b eps_r eps_s r s a b (Hnz r s a b Hr Hs Ha Hb)) as He.
    destruct (e_rsab eps_a eps_b eps_r eps_s r s a b) as [q|]; simpl in *; [|contradiction].
    rewrite (Hv r s a b Hr Hs Ha Hb). ring.
  - simpl. rewrite sum4_zero. ring.
Qed.

(** X8. When every denominator is negative (occupied below virtual orbital
    energies) and [v_rsab] holds the entries of [v_abrs] with the index pairs
    exchanged, the dispersion energy is a finite number that is not
    positive. *)
Theorem Disp200_not_positive (nr ns na nb : nat) (eps_a eps_b eps_r eps_s : vector)
  (v_rsab v_abrs : tensor4) :
  (forall r s a b, (r < nr)%nat -> (s < ns)%nat -> (a < na)%nat -> (b < nb)%nat ->
     eps_a a + eps_b b - eps_r r - eps_s s < 0) ->
  (forall r s a b, (r < nr)%nat -> (s < ns)%nat -> (a < na)%nat -> (b < nb)%nat ->
     v_rsab r s a b == v_abrs a b r s) ->
  exists q, np_eq (Disp200 nr ns na nb (e_rsab eps_a eps_b eps_r eps_s) v_rsab v_abrs)
                  (Finite q) /\ q <= 0.
Proof.
  intros Hneg Hv.
  exists (4 * sum4 nr ns na nb (fun r s a b =>
            1 / (eps_a a + eps_b b - eps_r r - eps_s s) * v_abrs a b r s * v_abrs a b r s)).
  split.
  - unfold Disp200.
    apply (np_mul_compat (Finite 4) (Finite 4) _ (Finite _)); [reflexivity|].
    apply np_sum4_finite. intros r s a b Hr Hs Ha Hb.
    assert (Hnz : ~ eps_a a + eps_b b - eps_r r - eps_s s == 0).
    { intros E. specialize (Hneg r s a b Hr Hs Ha Hb). rewrite E in Hneg. discriminate Hneg. }
    pose proof (e_rsab_nonzero eps_a eps_b eps_r eps_s r s a b Hnz) as He.
    destruct (e_rsab eps_a eps_b eps_r eps_s r s a b) as [q|]; simpl in *; [|contradiction].
    rewrite He, (Hv r s a b Hr Hs Ha Hb). reflexivity.
  - setoid_replace 0 with (4 * 0) by ring.
    apply Qmult_le_l; [reflexivity|].
    apply sum4_nonpos. intros r s a b Hr Hs Ha Hb.
    apply square_over_negative. now apply Hneg.
Qed.

Lemma np_sum_all_zero (n : nat) (f : nat -> npfloat) :
  (forall i, (i < n)%nat -> np_eq (f i) (Finite 0)) -> np_eq (np_sum n f) (Finite 0).
Proof.
  intros H. apply np_eq_trans with (y := Finite (sum n (fun _ => 0))).
  - now apply np_sum_finite.
  - simpl. apply sum_zero.
Qed.

(** X9. When one of the four orbital spaces is empty the dispersion energy is
    zero whatever the denominator tensor holds: no term is summed. *)
Theorem Disp200_empty_space (nr ns na nb : nat) (e : nptensor4) (v_rsab v_abrs : tensor4) :
  (nr = 0 \/ ns = 0 \/ na = 0 \/ nb = 0)%nat ->
  np_eq (Disp200 nr ns na nb e v_rsab v_abrs) (Finite 0).
Proof.
  intros H. unfold Disp200.
  apply np_eq_trans with (y := np_mul (Finite 4) (Finite 0)); [|simpl; ring].
  apply np_mul_compat; [apply np_eq_refl|]. unfold np_sum4.
  destruct H as [ -> | [ -> | [ -> | -> ] ] ].
  - reflexivity.
  - apply np_sum_all_zero; intros r _. reflexivity.
  - apply np_sum_all_zero; intros r _. apply np_sum_all_zero; intros s _. reflexivity.
  - apply np_sum_all_zero; intros r _. apply np_sum_all_zero; intros s _.
    apply np_sum_all_zero; intros a _. reflexivity.
Qed.

(** X10. A zero denominator reaches the total: whatever the other five
    energies are, the SAPT0 sum formed with the dispersion energy of the cell
    is non-finite. *)
Theorem sapt0_total_non_finite (nr ns na nb : nat) (eps_a eps_b eps_r eps_s : vector)
  (v_rsab v_abrs : tensor4) (r s a b : nat)
  (Exch100_val Elst10_val ExchDisp20_val Ind20r_val ExchInd20r_val : Q) :
  (r < nr)%nat -> (s < ns)%nat -> (a < na)%nat -> (b < nb)%nat ->
  eps_a a + eps_b b - eps_r r - eps_s s == 0 ->
  sapt0 Exch100_val Elst10_val
    (Disp200 nr ns na nb (e_rsab eps_a eps_b eps_r eps_s) v_rsab v_abrs)
    ExchDisp20_val Ind20r_val ExchInd20r_val
  = NonFinite.
Proof.
  intros Hr Hs Ha Hb Hz.
  assert (HD : Disp200 nr ns na nb (e_rsab eps_a eps_b eps_r eps_s) v_rsab v_abrs
               = NonFinite).
  { unfold Disp200.
    rewrite (np_sum4_nonfinite nr ns na nb r s a b); trivial.
    rewrite (e_rsab_zero _ _ _ _ _ _ _ _ Hz). reflexivity. }
  unfold sapt0. rewrite HD. reflexivity.
Qed.

(** ** The intermediates and the electrostatic energy *)

Lemma potential_symmetric (n k : nat) (I_ao : tensor4) (V C : matrix) :
  pair_symmetric n I_ao -> symmetric n V ->
  symmetric n (Np.add V (Np.scale 2 (generalized_J n I_ao (Np.dot k C (Np.T C))))).
Proof.
  intros HI HV K L HK HL. unfold Np.add, Np.scale.
  rewrite (HV K L HK HL), (generalized_J_symmetric n I_ao _ HI K L HK HL).
  reflexivity.
Qed.

(** X11. In a run whose integral tensor has the pair symmetries and whose
    nuclear-attraction matrices are symmetric, every intermediate of the
    first cell but [Kij] is a symmetric matrix: the densities [Pi], [Pj], the
    Coulomb and exchange matrices [Jii], [Kii], [Jjj], [Kjj], [Jij], the
    potentials [w_A], [w_B] and the Fock-like operators [h_A], [h_B]. *)
Theorem intermediates_symmetric (d : sapt.t) :
  pair_symmetric (sapt.nbf d) (sapt.ao_eri d) ->
  symmetric (sapt.nbf d) (sapt.V_A d) ->
  symmetric (sapt.nbf d) (sapt.V_B d) ->
  symmetric (sapt.nbf d) (Run.Pi d) /\ symmetric (sapt.nbf d) (Run.Pj d)
  /\ symmetric (sapt.nbf d) (Run.Jii d) /\ symmetric (sapt.nbf d) (Run.Kii d)
  /\ symmetric (sapt.nbf d) (Run.Jjj d) /\ symmetric (sapt.nbf d) (Run.Kjj d)
  /\ symmetric (sapt.nbf d) (Run.Jij d)
  /\ symmetric (sapt.nbf d) (Run.w_A d) /\ symmetric (sapt.nbf d) (Run.w_B d)
  /\ symmetric (sapt.nbf d) (Run.h_A d) /\ symmetric (sapt.nbf d) (Run.h_B d).
Proof.
  intros HI HVA HVB.
  split; [apply density_symmetric|]. split; [apply density_symmetric|].
  split; [now apply generalized_J_symmetric|].
  split; [apply generalized_K_symmetric; [exact HI | apply density_symmetric]|].
  split; [now apply generalized_J_symmetric|].
  split; [apply generalized_K_symmetric; [exact HI | apply density_symmetric]|].
  split; [now apply generalized_J_symmetric|].
  split; [now apply potential_symmetric|]. split; [now apply potential_symmetric|].
  split; now apply fock_symmetric.
Qed.

(** X12. The electrostatic energy of the run is the density of A in the
    electrostatic potential [w_B = V_B + 2 J_B] of B, plus the density of B
    in the nuclear attraction of A, plus the nuclear repulsion:
    [Elst10 = 2 <P_A, w_B> + 2 <V_A, P_B> + V_nuc]. *)
Theorem Elst10_from_potential (d : sapt.t) :
  Run.Elst10 d
  == 2 * frobenius (sapt.nbf d) (sapt.nbf d) (Run.Pi d) (Run.w_B d)
     + 2 * frobenius (sapt.nbf d) (sapt.nbf d) (sapt.V_A d) (Run.Pj d)
     + sapt.nuc_rep d.
Proof.
  unfold Run.Elst10, Elst10. cbv zeta. rewrite !vdot_frobenius.
  apply Qplus_comp; [|reflexivity].
  unfold frobenius.
  eapply Qeq_trans with (y := sum2 (sapt.nbf d) (sapt.nbf d) _); [collect2|].
  symmetry.
  eapply Qeq_trans with (y := sum2 (sapt.nbf d) (sapt.nbf d) _); [collect2|].
  apply sum2_ext. intros K L _ _. cbv beta.
  unfold Run.w_B, Np.add, Np.scale. ring.
Qed.

Lemma CPHF_ao_linear (nocc nvirt : nat) (C_occ C_virt X1 X2 : matrix) (c1 c2 : Q) (K L : nat) :
  CPHF_ao_documented nocc nvirt C_occ C_virt (fun r a => c1 * X1 r a + c2 * X2 r a) K L
  == c1 * CPHF_ao_documented nocc nvirt C_occ C_virt X1 K L
     + c2 * CPHF_ao_documented nocc nvirt C_occ C_virt X2 K L.
Proof.
  unfold CPHF_ao_documented.
  change (sum nocc (fun a => sum nvirt (fun r =>
            (c1 * X1 r a + c2 * X2 r a) * C_occ K a * C_virt L r))
          == c1 * sum2 nocc nvirt (fun a r => X1 r a * C_occ K a * C_virt L r)
             + c2 * sum2 nocc nvirt (fun a r => X2 r a * C_occ K a * C_virt L r)).
  symmetry.
  eapply Qeq_trans with (y := sum2 nocc nvirt _); [collect2|].
  apply sum2_ext. intros a r _ _. ring.
Qed.

Lemma frobenius_linear_l (n : nat) (A A1 A2 B : matrix) (c1 c2 : Q) :
  (forall K L, A K L == c1 * A1 K L + c2 * A2 K L) ->
  frobenius n n A B == c1 * frobenius n n A1 B + c2 * frobenius n n A2 B.
Proof.
  intros H. unfold frobenius. symmetry.
  eapply Qeq_trans with (y := sum2 n n _); [collect2|].
  apply sum2_ext. intros K L _ _. cbv beta. rewrite H. ring.
Qed.

(** X13. Both exchange-induction energies are linear in the CPHF amplitudes:
    for the amplitudes [c1 X1 + c2 X2] the cell gives [c1] times the energy
    of [X1] plus [c2] times the energy of [X2]. *)
Theorem ExchInd20_linear_in_CPHF (nbf na nb nr ns : nat) (c1 c2 : Q)
  (Ci Cj Cr Cs X1 X2 Y1 Y2 S_ao Pi Pj h_A h_B w_A w_B Kii Kjj Jij Kij : matrix)
  (Jjij Kjij Jiji Kiji : matrix) :
  ExchInd20_ab nbf na nr Ci Cr (fun r a => c1 * X1 r a + c2 * X2 r a)
    S_ao Pi Pj h_A h_B w_A w_B Kjj Jij Kij (Jjij, Kjij)
  == c1 * ExchInd20_ab nbf na nr Ci Cr X1 S_ao Pi Pj h_A h_B w_A w_B Kjj Jij Kij (Jjij, Kjij)
     + c2 * ExchInd20_ab nbf na nr Ci Cr X2 S_ao Pi Pj h_A h_B w_A w_B Kjj Jij Kij (Jjij, Kjij)
  /\ ExchInd20_ba nbf nb ns Cj Cs (fun s b => c1 * Y1 s b + c2 * Y2 s b)
       S_ao Pi Pj h_A h_B w_A w_B Kii Jij Kij (Jiji, Kiji)
     == c1 * ExchInd20_ba nbf nb ns Cj Cs Y1 S_ao Pi Pj h_A h_B w_A w_B Kii Jij Kij (Jiji, Kiji)
        + c2 * ExchInd20_ba nbf nb ns Cj Cs Y2 S_ao Pi Pj h_A h_B w_A w_B Kii Jij Kij
                 (Jiji, Kiji).
Proof.
  split.
  - rewrite !(ExchInd20_ab_bracket nbf na nr Ci Cr _ S_ao Pi Pj h_A h_B w_A w_B Kjj
                Jij Kij Jjij Kjij Jij (Np.T Kij)
                (mat_eq_refl nbf nbf Jij) (mat_eq_refl nbf nbf (Np.T Kij))).
    apply frobenius_linear_l. intros K L. apply CPHF_ao_linear.
  - rewrite !(ExchInd20_ba_bracket nbf nb ns Cj Cs _ S_ao Pi Pj h_A h_B w_A w_B Kii
                Jij Kij Jiji Kiji (Np.T Kij) (mat_eq_refl nbf nbf (Np.T Kij))).
    apply frobenius_linear_l. intros K L. apply CPHF_ao_linear.
Qed.

Lemma sum_all_zero (n : nat) (f : nat -> Q) :
  (forall i, (i < n)%nat -> f i == 0) -> sum n f == 0.
Proof.
  intros H. transitivity (sum n (fun _ => 0)); [now apply sum_ext | apply sum_zero].
Qed.

Lemma sum4_empty (n1 n2 n3 n4 : nat) (f : nat -> nat -> nat -> nat -> Q) :
  (n1 = 0 \/ n2 = 0 \/ n3 = 0 \/ n4 = 0)%nat -> sum4 n1 n2 n3 n4 f == 0.
Proof.
  intros H. unfold sum4. destruct H as [ -> | [ -> | [ -> | -> ] ] ].
  - reflexivity.
  - apply sum_all_zero; intros i _. reflexivity.
  - apply sum_all_zero; intros i _. apply sum_all_zero; intros j _. reflexivity.
  - apply sum_all_zero; intros i _. apply sum_all_zero; intros j _.
    apply sum_all_zero; intros k _. reflexivity.
Qed.

(** X14. When one of the four orbital spaces is empty the back-transformed
    amplitude is zero at every AO index and the exchange-dispersion energy
    is zero. *)
Theorem ExchDisp20_empty_space (nbf nr ns na nb : nat) (t I_ao : tensor4)
  (Ci Cj Cr Cs S_ao h_A h_B w_A w_B Pi Pj Kij : matrix) :
  (nr = 0 \/ ns = 0 \/ na = 0 \/ nb = 0)%nat ->
  (forall l n k m, t_lnkm nr ns na nb t Ci Cj Cr Cs l n k m == 0)
  /\ ExchDisp20 nbf (t_lnkm nr ns na nb t Ci Cj Cr Cs)
       I_ao S_ao h_A h_B w_A w_B Pi Pj Kij == 0.
Proof.
  intros H.
  assert (HT : forall l n k m, t_lnkm nr ns na nb t Ci Cj Cr Cs l n k m == 0).
  { intros l n k m. rewrite t_lnkm_documented. unfold t_LNKM_documented.
    now apply sum4_empty. }
  split; [exact HT|].
  rewrite ExchDisp20_contraction. unfold ExchDisp20_documented.
  transitivity (sum4 nbf nbf nbf nbf (fun _ _ _ _ => 0)); [|apply sum4_zero].
  apply sum4_ext. intros l n k m _ _ _ _. rewrite HT. ring.
Qed.

(** ** The further theorems at the small inputs *)

Lemma ExchInd20_ab_documented_witness :
  (pair_symmetric 2 Example.I_ao /\ symmetric 2 Example.S_ao)
  /\ Run.ExchInd20_ab Example.d
     == frobenius 2 2
          (CPHF_ao_documented 1 1 (Run.Ci Example.d) (Run.Cr Example.d)
             (Run.CPHF_ra Example.d))
          (ExchInd20_bracket 2 Example.S_ao
             (Run.h_A Example.d) (Run.h_B Example.d) (Run.w_A Example.d)
             (Run.w_B Example.d) (Run.Pi Example.d) (Run.Pj Example.d)
             (generalized_K 2 Example.I_ao (Run.Pj Example.d))
             (generalized_J 2 Example.I_ao
                (Np.dot 2 (Np.dot 2 (Run.Pj Example.d) Example.S_ao) (Run.Pi Example.d)))
             (generalized_K 2 Example.I_ao
                (Np.dot 2 (Np.dot 2 (Run.Pi Example.d) Example.S_ao) (Run.Pj Example.d)))
             (generalized_K 2 Example.I_ao
                (Np.dot 2 (Np.dot 2 (Run.Pj Example.d) Example.S_ao) (Run.Pi Example.d)))
             (generalized_J 2 Example.I_ao
                (Np.dot 2 (Np.dot 2 (Np.dot 2
                   (Np.dot 2 (Run.Pj Example.d) Example.S_ao) (Run.Pi Example.d))
                   Example.S_ao) (Run.Pj Example.d)))).
Proof.
  split.
  - split; [apply Example_pair_symmetric | apply Example_S_symmetric].
  - apply (ExchInd20_ab_documented Example.d Example_pair_symmetric Example_S_symmetric).
Defined.

Lemma ExchInd20_ba_documented_witness :
  (pair_symmetric 2 Example.I_ao /\ symmetric 2 Example.S_ao)
  /\ Run.ExchInd20_ba Example.d
     == frobenius 2 2
          (CPHF_ao_documented 1 1 (Run.Cj Example.d) (Run.Cs Example.d)
             (Run.CPHF_sb Example.d))
          (ExchInd20_bracket 2 Example.S_ao
             (Run.h_B Example.d) (Run.h_A Example.d) (Run.w_B Example.d)
             (Run.w_A Example.d) (Run.Pj Example.d) (Run.Pi Example.d)
             (generalized_K 2 Example.I_ao (Run.Pi Example.d))
             (generalized_J 2 Example.I_ao
                (Np.dot 2 (Np.dot 2 (Run.Pi Example.d) Example.S_ao) (Run.Pj Example.d)))
             (generalized_K 2 Example.I_ao
                (Np.dot 2 (Np.dot 2 (Run.Pj Example.d) Example.S_ao) (Run.Pi Example.d)))
             (generalized_K 2 Example.I_ao
                (Np.dot 2 (Np.dot 2 (Run.Pi Example.d) Example.S_ao) (Run.Pj Example.d)))
             (generalized_J 2 Example.I_ao
                (Np.dot 2 (Np.dot 2 (Np.dot 2
                   (Np.dot 2 (Run.Pi Example.d) Example.S_ao) (Run.Pj Example.d))
                   Example.S_ao) (Run.Pi Example.d)))).
Proof.
  split.
  - split; [apply Example_pair_symmetric | apply Example_S_symmetric].
  - apply (ExchInd20_ba_documented Example.d Example_pair_symmetric Example_S_symmetric).
Defined.

Lemma ExchDisp20_swap_witness :
  (pair_symmetric 2 Example.I_ao
   /\ mat_eq 2 2 (Run.Kij (swap_monomers Example.d)) (Np.T (Run.Kij Example.d)))
  /\ ExchDisp20 2
       (t_lnkm 1 1 1 1 (fun r s a b => Example.t s r b a)
          (Run.Cj Example.d) (Run.Ci Example.d) (Run.Cs Example.d) (Run.Cr Example.d))
       Example.I_ao Example.S_ao (Run.h_B Example.d) (Run.h_A Example.d)
       (Run.w_B Example.d) (Run.w_A Example.d) (Run.Pj Example.d) (Run.Pi Example.d)
       (Run.Kij (swap_monomers Example.d))
     == ExchDisp20 2
          (t_lnkm 1 1 1 1 Example.t
             (Run.Ci Example.d) (Run.Cj Example.d) (Run.Cr Example.d) (Run.Cs Example.d))
          Example.I_ao Example.S_ao (Run.h_A Example.d) (Run.h_B Example.d)
          (Run.w_A Example.d) (Run.w_B Example.d) (Run.Pi Example.d) (Run.Pj Example.d)
          (Run.Kij Example.d).
Proof.
  assert (HK : mat_eq 2 2 (Run.Kij (swap_monomers Example.d)) (Np.T (Run.Kij Example.d))).
  { intros i j Hi Hj. below2; vm_compute; reflexivity. }
  split.
  - split; [apply Example_pair_symmetric | exact HK].
  - apply (ExchDisp20_swap 2 1 1 1 1 Example.t Example.I_ao); [apply Example_pair_symmetric|].
    exact HK.
Defined.

Lemma Disp200_vanishes_witness :
  ((forall r s a b, (r < 1)%nat -> (s < 1)%nat -> (a < 1)%nat -> (b < 1)%nat ->
      ~ DispExample.eps_occ a + DispExample.eps_occ b
        - DispExample.eps_virt r - DispExample.eps_virt s == 0)
   /\ (forall r s a b, (r < 1)%nat -> (s < 1)%nat -> (a < 1)%nat -> (b < 1)%nat ->
         zero_slice a b r s == 0))
  /\ np_eq (Disp200 1 1 1 1
              (e_rsab DispExample.eps_occ DispExample.eps_occ
                      DispExample.eps_virt DispExample.eps_virt)
              DispExample.v_rsab zero_slice)
           (Finite 0).
Proof.
  assert (Hnz : forall r s a b,
            (r < 1)%nat -> (s < 1)%nat -> (a < 1)%nat -> (b < 1)%nat ->
            ~ DispExample.eps_occ a + DispExample.eps_occ b
              - DispExample.eps_virt r - DispExample.eps_virt s == 0).
  { intros r s a b _ _ _ _. vm_compute. discriminate. }
  assert (Hv : forall r s a b,
            (r < 1)%nat -> (s < 1)%nat -> (a < 1)%nat -> (b < 1)%nat ->
            zero_slice a b r s == 0).
  { intros r s a b _ _ _ _. reflexivity. }
  split; [split; [exact Hnz | exact Hv]|].
  apply (Disp200_vanishes 1 1 1 1 _ _ _ _ _ _ Hnz Hv).
Defined.

Lemma Disp200_not_positive_witness :
  ((forall r s a b, (r < 1)%nat -> (s < 1)%nat -> (a < 1)%nat -> (b < 1)%nat ->
      DispExample.eps_occ a + DispExample.eps_occ b
      - DispExample.eps_virt r - DispExample.eps_virt s < 0)
   /\ (forall r s a b, (r < 1)%nat -> (s < 1)%nat -> (a < 1)%nat -> (b < 1)%nat ->
         DispExample.v_abrs r s a b == DispExample.v_abrs a b r s))
  /\ exists q,
       np_eq (Disp200 1 1 1 1
                (e_rsab DispExample.eps_occ DispExample.eps_occ
                        DispExample.eps_virt DispExample.eps_virt)
                DispExample.v_abrs DispExample.v_abrs)
             (Finite q)
       /\ q <= 0.
Proof.
  assert (Hneg : forall r s a b,
            (r < 1)%nat -> (s < 1)%nat -> (a < 1)%nat -> (b < 1)%nat ->
            DispExample.eps_occ a + DispExample.eps_occ b
            - DispExample.eps_virt r - DispExample.eps_virt s < 0).
  { intros r s a b _ _ _ _. vm_compute. reflexivity. }
  assert (Hv : forall r s a b,
            (r < 1)%nat -> (s < 1)%nat -> (a < 1)%nat -> (b < 1)%nat ->
            DispExample.v_abrs r s a b == DispExample.v_abrs a b r s).
  { intros r s a b _ _ _ _. reflexivity. }
  split; [split; [exact Hneg | exact Hv]|].
  apply (Disp200_not_positive 1 1 1 1 _ _ _ _ _ _ Hneg Hv).
Defined.

Lemma Disp200_empty_space_witness :
  (0 = 0 \/ 1 = 0 \/ 1 = 0 \/ 1 = 0)%nat
  /\ np_eq (Disp200 0 1 1 1
              (e_rsab DispExample.eps_flat DispExample.eps_flat
                      DispExample.eps_flat DispExample.eps_flat)
              DispExample.v_rsab DispExample.v_abrs)
           (Finite 0).
Proof.
  split; [left; reflexivity|].
  apply (Disp200_empty_space 0 1 1 1). left. reflexivity.
Defined.

Lemma sapt0_total_non_finite_witness :
  (DispExample.eps_flat 0%nat + DispExample.eps_flat 0%nat
   - DispExample.eps_flat 0%nat - DispExample.eps_flat 0%nat == 0)
  /\ sapt0 (Run.Exch100 Example.d) (Run.Elst10 Example.d)
       (Disp200 1 1 1 1
          (e_rsab DispExample.eps_flat DispExample.eps_flat
                  DispExample.eps_flat DispExample.eps_flat)
          DispExample.v_rsab DispExample.v_abrs)
       0 (Run.Ind20r Example.d)
       (ExchInd20r (Run.ExchInd20_ba Example.d) (Run.ExchInd20_ab Example.d))
     = NonFinite.
Proof.
  split.
  - vm_compute. reflexivity.
  - apply (sapt0_total_non_finite 1 1 1 1 _ _ _ _ _ _ 0 0 0 0); try lia.
    vm_compute. reflexivity.
Defined.

Lemma intermediates_symmetric_witness :
  (pair_symmetric 2 Example.I_ao /\ symmetric 2 Example.V_A /\ symmetric 2 Example.V_B)
  /\ symmetric 2 (Run.Pi Example.d) /\ symmetric 2 (Run.Pj Example.d)
  /\ symmetric 2 (Run.Jii Example.d) /\ symmetric 2 (Run.Kii Example.d)
  /\ symmetric 2 (Run.Jjj Example.d) /\ symmetric 2 (Run.Kjj Example.d)
  /\ symmetric 2 (Run.Jij Example.d)
  /\ symmetric 2 (Run.w_A Example.d) /\ symmetric 2 (Run.w_B Example.d)
  /\ symmetric 2 (Run.h_A Example.d) /\ symmetric 2 (Run.h_B Example.d).
Proof.
  split.
  - split; [apply Example_pair_symmetric|].
    split; [apply Example_V_A_symmetric | apply Example_V_B_symmetric].
  - apply (intermediates_symmetric Example.d Example_pair_symmetric
             Example_V_A_symmetric Example_V_B_symmetric).
Defined.

Lemma ExchDisp20_empty_space_witness :
  (0 = 0 \/ 1 = 0 \/ 1 = 0 \/ 1 = 0)%nat
  /\ (forall l n k m,
        t_lnkm 0 1 1 1 Example.t (Run.Ci Example.d) (Run.Cj Example.d)
          (Run.Cr Example.d) (Run.Cs Example.d) l n k m == 0)
  /\ ExchDisp20 2
       (t_lnkm 0 1 1 1 Example.t (Run.Ci Example.d) (Run.Cj Example.d)
          (Run.Cr Example.d) (Run.Cs Example.d))
       Example.I_ao Example.S_ao (Run.h_A Example.d) (Run.h_B Example.d)
       (Run.w_A Example.d) (Run.w_B Example.d) (Run.Pi Example.d) (Run.Pj Example.d)
       (Run.Kij Example.d) == 0.
Proof.
  split; [left; reflexivity|].
  apply (ExchDisp20_empty_space 2 0 1 1 1). left. reflexivity.
Defined.
